(** * Vienna Type List Library (VTLL.h): a shallow embedding

    The library computes on types while the consuming program is compiled.
    The embedding represents a C++ type by a term of [ty], a template
    instantiation by a function on such terms, and a program that the
    compiler rejects by [Error].  Every definition below follows one
    entity of [VTLL.h]; the line numbers in the comments refer to it. *)

From Stdlib Require Import ZArith Bool String List Lia.
Import ListNotations.
Local Open Scope Z_scope.

(** ** Types as data *)

(** Fundamental types that occur in the library's own assertions. *)
Inductive builtin : Set :=
| Void | Bool | Char | Int | Float | Double.

(** A template that takes a pack of types, [template <typename...> typename Seq]:
    the shape of a type sequence.  [type_list] and [type_list2] are the two
    shapes the header declares (lines 30-55); any other class template of the host
    program is a [user_template], one that declares no static member [value]. *)
Inductive tag : Set :=
| type_list
| type_list2
| user_template (name : string).

(** A template that takes a pack of [size_t] values,
    [template <size_t...> typename Seq]: the shape of a value sequence
    ([value_list], lines 40-43, or one of the host program). *)
Inductive vtag : Set :=
| value_list
| user_value_template (name : string).

(** C++ types.  A type is denoted by its canonical spelling: a qualifier is
    applied at most once and never to a reference or function type, and
    the qualifier of an array is the one of its element type. *)
#[local] Unset Elimination Schemes.
Inductive ty : Set :=
| Builtin (b : builtin)
| Class (name : string)                (* a class of the host without a static member value *)
| Valued (name : string) (v : Z)       (* a class of the host with static constexpr std::size_t value = v *)
| Const (t : ty)                       (* const T *)
| Volatile (t : ty)                    (* volatile T *)
| LRef (t : ty)                        (* T& *)
| RRef (t : ty)                        (* T&& *)
| Ptr (t : ty)                         (* T* *)
| Arr (t : ty) (n : Z)                 (* T[n] *)
| ArrU (t : ty)                        (* T[] *)
| Fn (r : ty) (params : list ty)       (* R(Params...) *)
| integral_constant (v : Z)            (* std::integral_constant<std::size_t, v> *)
| TSeq (tg : tag) (ts : list ty)       (* Seq<Ts...> *)
| VSeq (tg : vtag) (vs : list Z).      (* Seq<Is...> *)
#[local] Set Elimination Schemes.

Definition builtin_eqb (a b : builtin) : bool :=
  match a, b with
  | Void, Void | Bool, Bool | Char, Char
  | Int, Int | Float, Float | Double, Double => true
  | _, _ => false
  end.

Definition tag_eqb (a b : tag) : bool :=
  match a, b with
  | type_list, type_list => true
  | type_list2, type_list2 => true
  | user_template x, user_template y => String.eqb x y
  | _, _ => false
  end.

Definition vtag_eqb (a b : vtag) : bool :=
  match a, b with
  | value_list, value_list => true
  | user_value_template x, user_value_template y => String.eqb x y
  | _, _ => false
  end.

Fixpoint Zlist_eqb (xs ys : list Z) : bool :=
  match xs, ys with
  | [], [] => true
  | x :: xs', y :: ys' => (x =? y) && Zlist_eqb xs' ys'
  | _, _ => false
  end.

(** [std::is_same_v<A, B>]: identity of types. *)
Fixpoint ty_eqb (a b : ty) {struct a} : bool :=
  let fix tys_eqb (xs ys : list ty) {struct xs} : bool :=
    match xs, ys with
    | [], [] => true
    | x :: xs', y :: ys' => ty_eqb x y && tys_eqb xs' ys'
    | _, _ => false
    end in
  match a, b with
  | Builtin x, Builtin y => builtin_eqb x y
  | Class x, Class y => String.eqb x y
  | Valued x v, Valued y w => String.eqb x y && (v =? w)
  | Const x, Const y => ty_eqb x y
  | Volatile x, Volatile y => ty_eqb x y
  | LRef x, LRef y => ty_eqb x y
  | RRef x, RRef y => ty_eqb x y
  | Ptr x, Ptr y => ty_eqb x y
  | Arr x n, Arr y m => ty_eqb x y && (n =? m)
  | ArrU x, ArrU y => ty_eqb x y
  | Fn r ps, Fn s qs => ty_eqb r s && tys_eqb ps qs
  | integral_constant v, integral_constant w => v =? w
  | TSeq g xs, TSeq h ys => tag_eqb g h && tys_eqb xs ys
  | VSeq g xs, VSeq h ys => vtag_eqb g h && Zlist_eqb xs ys
  | _, _ => false
  end.

Fixpoint tys_eqb (xs ys : list ty) {struct xs} : bool :=
  match xs, ys with
  | [], [] => true
  | x :: xs', y :: ys' => ty_eqb x y && tys_eqb xs' ys'
  | _, _ => false
  end.

(** ** Translation results *)

(** Why the compiler rejects an instantiation. *)
Inductive diagnostic : Set :=
| incomplete_type            (* no specialisation matches: only the declaration is left *)
| ambiguous_specialization   (* several match and none is more specialised *)
| index_out_of_range         (* std::tuple_element past the end *)
| pack_length_mismatch       (* two packs of different lengths expanded together *)
| no_member_value            (* T::value on a type without such a member *)
| not_a_constant.            (* overflow or narrowing in a constant expression *)

Inductive compile (A : Type) : Type :=
| Ok (a : A)
| Error (d : diagnostic).
Arguments Ok {A} a.
Arguments Error {A} d.

Definition bind {A B : Type} (c : compile A) (k : A -> compile B) : compile B :=
  match c with
  | Ok a => k a
  | Error d => Error d
  end.

Notation "x <- c ;; k" := (bind c (fun x => k))
  (at level 61, c at next level, right associativity).

(** A pack expansion [F<Ts>...]: every element is instantiated, left to right. *)
Fixpoint expand {A B : Type} (F : A -> compile B) (Ts : list A) : compile (list B) :=
  match Ts with
  | [] => Ok []
  | T :: Ts' => x <- F T ;; xs <- expand F Ts' ;; Ok (x :: xs)
  end.

(** [std::conditional<B, T, F>::type].  Both [T] and [F] are template
    arguments: they are formed before the choice is made. *)
Definition conditional {A : Type} (B : bool) (T F : A) : A :=
  if B then T else F.

(** ** Integer types *)

Definition SIZE_MAX : Z := 2 ^ 64 - 1.   (* std::numeric_limits<size_t>::max() *)
Definition INT_MAX : Z := 2 ^ 31 - 1.
Definition INT_MIN : Z := - 2 ^ 31.

(** Arithmetic on [std::size_t] is modulo [2^64]. *)
Definition size_t_wrap (z : Z) : Z := z mod 2 ^ 64.

(** [T::value]: the integer of an integer token or of a class that
    declares the static member; fundamental and compound types and the
    sequences of the header have no such member. *)
Definition value (t : ty) : compile Z :=
  match t with
  | integral_constant v => Ok v
  | Valued _ v => Ok v
  | _ => Error no_member_value
  end.

(** The integer types a loop index can have. *)
Inductive int_type : Set :=
| T_int | T_unsigned | T_long_long | T_size_t.

Definition is_signed (T : int_type) : bool :=
  match T with
  | T_int | T_long_long => true
  | T_unsigned | T_size_t => false
  end.

Definition bits (T : int_type) : Z :=
  match T with
  | T_int | T_unsigned => 32
  | T_long_long | T_size_t => 64
  end.

Definition min_of (T : int_type) : Z :=
  if is_signed T then - 2 ^ (bits T - 1) else 0.

Definition max_of (T : int_type) : Z :=
  if is_signed T then 2 ^ (bits T - 1) - 1 else 2 ^ bits T - 1.

Definition representable (T : int_type) (z : Z) : bool :=
  (min_of T <=? z) && (z <=? max_of T).

(** The value of an arithmetic constant expression of type [T] whose
    mathematical result is [z]: unsigned arithmetic wraps, a signed result
    that does not fit is not a constant expression. *)
Definition constant (T : int_type) (z : Z) : compile Z :=
  if is_signed T
  then if representable T z then Ok z else Error not_a_constant
  else Ok (z mod 2 ^ bits T).

(** [std::make_integer_sequence<T, N>]: the pack [0, 1, ..., N-1]. *)
Definition make_integer_sequence (N : Z) : compile (list Z) :=
  if N <? 0 then Error not_a_constant
  else Ok (map Z.of_nat (seq 0 (Z.to_nat N))).

(** ** Sequence primitives *)

(** [size] (lines 65-75). *)
Definition size (Seq : ty) : compile ty :=
  match Seq with
  | TSeq _ Ts => Ok (integral_constant (Z.of_nat (length Ts)))
  | _ => Error incomplete_type
  end.

(** [std::tuple_element<N, std::tuple<Ts...>>::type]: the element at
    position [N], which has to be below the size of the pack. *)
Definition tuple_element (N : Z) (Ts : list ty) : compile ty :=
  if 0 <=? N then
    match nth_error Ts (Z.to_nat N) with
    | Some T => Ok T
    | None => Error index_out_of_range
    end
  else Error index_out_of_range.

Definition int_type_eqb (T U : int_type) : bool :=
  match T, U with
  | T_int, T_int | T_unsigned, T_unsigned
  | T_long_long, T_long_long | T_size_t, T_size_t => true
  | _, _ => false
  end.

(** The type of the index of [detail::Nth_type_impl]: [size_t N] in the
    primary template (line 83), [int N] in its only partial specialisation
    (line 86). *)
Definition Nth_type_primary_index : int_type := T_size_t.
Definition Nth_type_specialization_index : int_type := T_int.

(** A non-type argument of a partial specialisation is deduced only when
    its type is the type of the corresponding parameter of the primary
    template. *)
Definition index_deducible (primary specialization : int_type) : bool :=
  int_type_eqb primary specialization.

(** [Nth_type] (lines 82-93).  The specialisation of line 87 has the body
    [std::tuple_element<N, std::tuple<Ts...>>]; where it is not deduced only
    the declaration of line 84 is left. *)
Definition Nth_type (Seq : ty) (N : Z) : compile ty :=
  match Seq with
  | TSeq _ Ts =>
      if index_deducible Nth_type_primary_index Nth_type_specialization_index
      then tuple_element N Ts
      else Error incomplete_type
  | _ => Error incomplete_type
  end.

(** [front] (line 103). *)
Definition front (Seq : ty) : compile ty := Nth_type Seq 0.

(** [back] (line 117): the index is [size<Seq>::value - 1], computed in
    [std::size_t]. *)
Definition back (Seq : ty) : compile ty :=
  s <- size Seq ;;
  n <- value s ;;
  Nth_type Seq (size_t_wrap (n - 1)).

(** [detail::index_of_impl] (lines 130-142).  Of the two specialisations
    for a non-empty sequence, [Seq<T, Ts...>, T] (line 138) is the more
    specialised one and is taken when the head is [T]; otherwise line 141
    adds one, in [std::size_t], to the result for the tail. *)
Fixpoint index_of_impl (Ts : list ty) (T : ty) : Z :=
  match Ts with
  | [] => SIZE_MAX
  | TOther :: Ts' =>
      if ty_eqb TOther T then 0
      else size_t_wrap (1 + index_of_impl Ts' T)
  end.

(** [index_of] (line 145). *)
Definition index_of (Seq T : ty) : compile ty :=
  match Seq with
  | TSeq _ Ts => Ok (integral_constant (index_of_impl Ts T))
  | _ => Error incomplete_type
  end.

(** ** Choosing a partial specialisation *)

(** The forms in which a partial specialisation of the library names the
    pack of a sequence argument. *)
Inductive pack_pattern : Set :=
| pack_empty     (* Seq<> *)
| pack_cons      (* Seq<T, Ts...> *)
| pack_any.      (* Seq<Ts...> *)

Definition pack_matches (p : pack_pattern) (Ts : list ty) : bool :=
  match p, Ts with
  | pack_empty, [] => true
  | pack_cons, _ :: _ => true
  | pack_any, _ => true
  | _, _ => false
  end.

(** [p] is at least as specialised as [q]: the arguments of [q] can be
    deduced from the form [p], and give [p] back when they are put into [q].
    [Seq<>] cannot be deduced from [Seq<Ts...>], nor [Seq<T, Ts...>] from it. *)
Definition at_least_as_specialized (p q : pack_pattern) : bool :=
  match p, q with
  | _, pack_any => true
  | pack_empty, pack_empty => true
  | pack_cons, pack_cons => true
  | _, _ => false
  end.

(** A specialisation with two sequence arguments. *)
Definition pattern2 : Set := pack_pattern * pack_pattern.

Definition matches2 (p : pattern2) (Ts1 Ts2 : list ty) : bool :=
  pack_matches (fst p) Ts1 && pack_matches (snd p) Ts2.

Definition at_least_as_specialized2 (p q : pattern2) : bool :=
  at_least_as_specialized (fst p) (fst q)
  && at_least_as_specialized (snd p) (snd q).

Definition more_specialized2 (p q : pattern2) : bool :=
  at_least_as_specialized2 p q && negb (at_least_as_specialized2 q p).

(** The candidates that are more specialised than every other candidate. *)
Fixpoint most_specialized {S : Type} (pat : S -> pattern2)
    (seen todo : list S) : list S :=
  match todo with
  | [] => []
  | c :: rest =>
      let tail := most_specialized pat (seen ++ [c]) rest in
      if forallb (fun o => more_specialized2 (pat c) (pat o)) (seen ++ rest)
      then c :: tail else tail
  end.

(** The specialisation the compiler instantiates: the matching one that is
    more specialised than all other matching ones.  Without a match only
    the declaration of the primary template is left; without a single most
    specialised match the instantiation is ambiguous. *)
Definition select {S : Type} (pat : S -> pattern2) (all : list S)
    (Ts1 Ts2 : list ty) : compile S :=
  match filter (fun s => matches2 (pat s) Ts1 Ts2) all with
  | [] => Error incomplete_type
  | candidates =>
      match most_specialized pat [] candidates with
      | [s] => Ok s
      | _ => Error ambiguous_specialization
      end
  end.

(** ** Structural algebra *)

(** The three partial specialisations of [detail::cat_impl] (lines 160-173). *)
Inductive cat_specialization : Set :=
| cat_first_empty     (* cat_impl<Seq1<>, Seq2<Ts...>>,            line 161 *)
| cat_second_empty    (* cat_impl<Seq1<Ts...>, Seq2<>>,            line 166 *)
| cat_move_head.      (* cat_impl<Seq1<Ts1...>, Seq2<T, Ts2...>>,  line 171 *)

Definition cat_pattern (s : cat_specialization) : pattern2 :=
  match s with
  | cat_first_empty => (pack_empty, pack_any)
  | cat_second_empty => (pack_any, pack_empty)
  | cat_move_head => (pack_any, pack_cons)
  end.

Definition cat_specializations : list cat_specialization :=
  [cat_first_empty; cat_second_empty; cat_move_head].

(** [detail::cat_impl]: line 172 moves the head of the second pack to the
    end of the first and instantiates [cat_impl] again. *)
Fixpoint cat_impl (Seq1 : tag) (Ts1 Ts2 : list ty) {struct Ts2} : compile ty :=
  s <- select cat_pattern cat_specializations Ts1 Ts2 ;;
  match s with
  | cat_first_empty => Ok (TSeq Seq1 Ts2)
  | cat_second_empty => Ok (TSeq Seq1 Ts1)
  | cat_move_head =>
      match Ts2 with
      | T :: Ts2' => cat_impl Seq1 (Ts1 ++ [T]) Ts2'
      | [] => Error incomplete_type
      end
  end.

(** [cat] (line 177). *)
Definition cat (Seq1 Seq2 : ty) : compile ty :=
  match Seq1, Seq2 with
  | TSeq tg1 Ts1, TSeq _ Ts2 => cat_impl tg1 Ts1 Ts2
  | _, _ => Error incomplete_type
  end.

(** [transform] (lines 226-236): [Seq<Fun<Ts>...>]. *)
Definition transform (Seq : ty) (Fun : ty -> compile ty) : compile ty :=
  match Seq with
  | TSeq tg Ts => Us <- expand Fun Ts ;; Ok (TSeq tg Us)
  | _ => Error incomplete_type
  end.

(** ** Predicate algebra *)

Definition remove_reference (t : ty) : ty :=
  match t with
  | LRef u | RRef u => u
  | _ => t
  end.

Fixpoint remove_cv (t : ty) : ty :=
  match t with
  | Const u | Volatile u => remove_cv u
  | _ => t
  end.

(** [std::decay_t<T>]: with [U] the type [T] without its reference, an
    array [U] gives the pointer to its element, a function [U] the pointer
    to it, and any other [U] loses its top-level qualifiers. *)
Definition decay (T : ty) : ty :=
  let U := remove_reference T in
  match U with
  | Arr E _ | ArrU E => Ptr E
  | Fn _ _ => Ptr U
  | _ => remove_cv U
  end.

(** The expansion of one pattern that names two packs: the packs must have
    the same length. *)
Fixpoint expand2 {A B C : Type} (F : A -> B -> C) (Ts : list A) (Args : list B)
    : compile (list C) :=
  match Ts, Args with
  | [], [] => Ok []
  | T :: Ts', A :: Args' => xs <- expand2 F Ts' Args' ;; Ok (F T A :: xs)
  | _, _ => Error pack_length_mismatch
  end.

(** [is_same] (lines 307-321).  The primary template (line 309) serves a
    first argument that is no type sequence; for a sequence, line 315 has the
    fold [(std::is_same_v<std::decay_t<Ts>, std::decay_t<Args>> && ... && true)]
    over both packs. *)
Definition is_same (Seq : ty) (Args : list ty) : compile bool :=
  match Seq with
  | TSeq _ Ts =>
      same <- expand2 (fun T A => ty_eqb (decay T) (decay A)) Ts Args ;;
      Ok ((length Ts =? length Args)%nat && fold_right andb true same)
  | _ => Ok false
  end.

(** [has_type] (lines 328-345): [(std::is_same_v<T, Ts> || ...)], and
    [false] by the more specialised line 333 for the empty sequence. *)
Definition has_type (Seq T : ty) : compile bool :=
  match Seq with
  | TSeq _ [] => Ok false
  | TSeq _ Ts => Ok (fold_right orb false (map (fun U => ty_eqb T U) Ts))
  | _ => Error incomplete_type
  end.

(** [has_all_types] (lines 430-442): [(has_type<Seq1<Ts1...>, Ts2>::value && ...)]. *)
Definition has_all_types (Seq1 Seq2 : ty) : compile bool :=
  match Seq1, Seq2 with
  | TSeq _ _, TSeq _ Ts2 =>
      bs <- expand (fun T2 => has_type Seq1 T2) Ts2 ;;
      Ok (fold_right andb true bs)
  | _, _ => Error incomplete_type
  end.

(** [detail::erase_type_impl] (lines 357-367).  [type1] and [type2] are
    both formed, then [std::conditional] chooses. *)
Fixpoint erase_type_impl (Seq : tag) (Ts : list ty) (C : ty) : compile ty :=
  match Ts with
  | [] => Ok (TSeq Seq [])
  | T :: Ts' =>
      rest <- erase_type_impl Seq Ts' C ;;
      type1 <- cat (TSeq Seq [T]) rest ;;
      let type2 := rest in
      Ok (conditional (negb (ty_eqb T C)) type1 type2)
  end.

(** [erase_type] (line 370). *)
Definition erase_type (Seq C : ty) : compile ty :=
  match Seq with
  | TSeq tg Ts => erase_type_impl tg Ts C
  | _ => Error incomplete_type
  end.

(** ** Filter algebra *)

(** [detail::filter_have_all_types_impl] (lines 490-501). *)
Fixpoint filter_have_all_types_impl (Seq1 : tag) (Ts : list ty) (Seq2 : ty)
    : compile ty :=
  match Ts with
  | [] => Ok (TSeq Seq1 [])
  | T :: Ts' =>
      rest <- filter_have_all_types_impl Seq1 Ts' Seq2 ;;
      type1 <- cat (TSeq Seq1 [T]) rest ;;
      let type2 := rest in
      keep <- has_all_types T Seq2 ;;
      Ok (conditional keep type1 type2)
  end.

(** [filter_have_all_types] (line 504). *)
Definition filter_have_all_types (Seq1 Seq2 : ty) : compile ty :=
  match Seq1, Seq2 with
  | TSeq tg Ts, TSeq _ _ => filter_have_all_types_impl tg Ts Seq2
  | _, _ => Error incomplete_type
  end.

(** ** Map algebra *)

(** [detail::map_impl] (lines 629-637), named [map] by line 646.  The
    second argument of [std::conditional], the value found at
    [index_of<Keys, Key>], is formed whether or not the key is present. *)
Definition map_impl (Map Key Default : ty) : compile ty :=
  Keys <- transform Map front ;;
  present <- has_type Keys Key ;;
  i <- index_of Keys Key ;;
  n <- value i ;;
  pair <- Nth_type Map n ;;
  found <- back pair ;;
  Ok (conditional present found Default).

(** ** Bounded iteration *)

Section StaticFor.
(** The state the action works on, and the action: it receives the
    index as [std::integral_constant<T, i>]. *)
Variable St : Type.
Variable f : Z -> St -> St.

(** [detail::static_for_impl] (lines 676-679): the fold over the comma
    operator [(f(std::integral_constant<T, Begin + Is>{}), ...)] calls [f]
    for the elements of the pack from left to right. *)
Definition static_for_impl (T : int_type) (Begin : Z) (Is : list Z) (s : St)
    : compile St :=
  indices <- expand (fun I => constant T (Begin + I)) Is ;;
  Ok (fold_left (fun s i => f i s) indices s).

(** [static_for] (lines 682-685). *)
Definition static_for (T : int_type) (Begin End : Z) (s : St) : compile St :=
  N <- constant T (End - Begin) ;;
  Is <- make_integer_sequence N ;;
  static_for_impl T Begin Is s.
End StaticFor.
Arguments static_for_impl {St} f T Begin Is s.
Arguments static_for {St} f T Begin End s.

(** ** Value algebra *)

(** [type_to_value] (lines 853-864): [value_list<Ts::value...>]. *)
Definition type_to_value (Seq : ty) : compile ty :=
  match Seq with
  | TSeq _ Ts => Is <- expand value Ts ;; Ok (VSeq value_list Is)
  | _ => Error incomplete_type
  end.

(** [value_to_type] (lines 877-888):
    [type_list<std::integral_constant<size_t, Is>...>]. *)
Definition value_to_type (Seq : ty) : compile ty :=
  match Seq with
  | VSeq _ Is => Ok (TSeq type_list (map integral_constant Is))
  | _ => Error incomplete_type
  end.

(** ** Further operations of the header *)

(** [detail::erase_Nth_impl] (lines 379-390).  Line 383, for the index 0,
    is more specialised than line 388, which erases position [N-1] of the
    tail; no specialisation is written for the empty sequence. *)
Fixpoint erase_Nth_impl (Seq : tag) (Ts : list ty) (N : Z) : compile ty :=
  match Ts with
  | [] => Error incomplete_type
  | T :: Ts' =>
      if N =? 0 then Ok (TSeq Seq Ts')
      else
        rest <- erase_Nth_impl Seq Ts' (size_t_wrap (N - 1)) ;;
        cat (TSeq Seq [T]) rest
  end.

(** [erase_Nth] (line 394). *)
Definition erase_Nth (Seq : ty) (N : Z) : compile ty :=
  match Seq with
  | TSeq tg Ts => erase_Nth_impl tg Ts N
  | _ => Error incomplete_type
  end.

(** [substitute] (lines 264-274): [Fun<Ts...>], the pack in another shape. *)
Definition substitute (Seq : ty) (Fun : tag) : compile ty :=
  match Seq with
  | TSeq _ Ts => Ok (TSeq Fun Ts)
  | _ => Error incomplete_type
  end.

(** [detail::transfer_impl] (lines 283-296). *)
Fixpoint transfer_impl (Seq : tag) (Ts : list ty) (Fun : tag) : compile ty :=
  match Ts with
  | [] => Ok (TSeq Seq [])
  | T :: Ts' =>
      head <- substitute T Fun ;;
      rest <- transfer_impl Seq Ts' Fun ;;
      cat (TSeq Seq [head]) rest
  end.

(** [transfer] (line 298). *)
Definition transfer (Seq : ty) (Fun : tag) : compile ty :=
  match Seq with
  | TSeq tg Ts => transfer_impl tg Ts Fun
  | _ => Error incomplete_type
  end.

(** [has_any_type] (lines 410-422): [(has_type<Seq1<Ts1...>, Ts2>::value || ...)]. *)
Definition has_any_type (Seq1 Seq2 : ty) : compile bool :=
  match Seq1, Seq2 with
  | TSeq _ _, TSeq _ Ts2 =>
      bs <- expand (fun T2 => has_type Seq1 T2) Ts2 ;;
      Ok (fold_right orb false bs)
  | _, _ => Error incomplete_type
  end.

(** [detail::filter_have_type_impl] (lines 451-467). *)
Fixpoint filter_have_type_impl (Seq : tag) (Ts : list ty) (C : ty) : compile ty :=
  match Ts with
  | [] => Ok (TSeq Seq [])
  | T :: Ts' =>
      rest <- filter_have_type_impl Seq Ts' C ;;
      type1 <- cat (TSeq Seq [T]) rest ;;
      let type2 := rest in
      keep <- has_type T C ;;
      Ok (conditional keep type1 type2)
  end.

(** [filter_have_type] (line 469). *)
Definition filter_have_type (Seq C : ty) : compile ty :=
  match Seq with
  | TSeq tg Ts => filter_have_type_impl tg Ts C
  | _ => Error incomplete_type
  end.

(** [detail::filter_have_any_type_impl] (lines 519-535). *)
Fixpoint filter_have_any_type_impl (Seq1 : tag) (Ts : list ty) (Seq2 : ty)
    : compile ty :=
  match Ts with
  | [] => Ok (TSeq Seq1 [])
  | T :: Ts' =>
      rest <- filter_have_any_type_impl Seq1 Ts' Seq2 ;;
      type1 <- cat (TSeq Seq1 [T]) rest ;;
      let type2 := rest in
      keep <- has_any_type T Seq2 ;;
      Ok (conditional keep type1 type2)
  end.

(** [filter_have_any_type] (line 537). *)
Definition filter_have_any_type (Seq1 Seq2 : ty) : compile ty :=
  match Seq1, Seq2 with
  | TSeq tg Ts, TSeq _ _ => filter_have_any_type_impl tg Ts Seq2
  | _, _ => Error incomplete_type
  end.

(** The fold [(Is + ... + 0)] of lines 583 and 958: every addition is one
    of [std::size_t]. *)
Definition fold_plus (Is : list Z) : Z :=
  fold_right (fun I acc => size_t_wrap (I + acc)) 0 Is.

(** [sum] (lines 577-587): [(Ts::value + ... + 0)]. *)
Definition sum (Seq : ty) : compile ty :=
  match Seq with
  | TSeq _ Ts => Is <- expand value Ts ;; Ok (integral_constant (fold_plus Is))
  | _ => Error incomplete_type
  end.

(** [function] (lines 599-614): [Seq<typename Fun<Ts>::type...>]. *)
Definition function (Seq : ty) (Fun : ty -> compile ty) : compile ty :=
  match Seq with
  | TSeq tg Ts => Us <- expand Fun Ts ;; Ok (TSeq tg Us)
  | _ => Error incomplete_type
  end.

(** [detail::test_func] (lines 608-611): the token of [2*T::value]. *)
Definition test_func (T : ty) : compile ty :=
  v <- value T ;; Ok (integral_constant (size_t_wrap (2 * v))).

(** [apply_map] (lines 655-666): [vtll::type_list<vtll::map<Map, Ks, Default>...>]. *)
Definition apply_map (Map Keys Default : ty) : compile ty :=
  match Keys with
  | TSeq _ Ks =>
      Vs <- expand (fun K => map_impl Map K Default) Ks ;;
      Ok (TSeq type_list Vs)
  | _ => Error incomplete_type
  end.

(** [size_value] (lines 901-912). *)
Definition size_value (Seq : ty) : compile ty :=
  match Seq with
  | VSeq _ Is => Ok (integral_constant (Z.of_nat (length Is)))
  | _ => Error incomplete_type
  end.

(** [Nth_value] (lines 920-931):
    [Nth_type<type_list<std::integral_constant<size_t, Is>...>, N>]. *)
Definition Nth_value (Seq : ty) (N : Z) : compile ty :=
  match Seq with
  | VSeq _ Is => Nth_type (TSeq type_list (map integral_constant Is)) N
  | _ => Error incomplete_type
  end.

(** [front_value] (line 940); the member [type] of an integer token is
    the token itself. *)
Definition front_value (Seq : ty) : compile ty := Nth_value Seq 0.

(** [back_value] (line 949): the index is [size_value<Seq>::value - 1],
    computed in [std::size_t]. *)
Definition back_value (Seq : ty) : compile ty :=
  s <- size_value Seq ;;
  n <- value s ;;
  Nth_value Seq (size_t_wrap (n - 1)).

(** [sum_value] (line 958). *)
Definition sum_value (Is : list Z) : ty := integral_constant (fold_plus Is).

(** [function_value] (line 975): [vtll::type_list<typename Fun<Is>::type...>]. *)
Definition function_value (Fun : Z -> compile ty) (Is : list Z) : compile ty :=
  Us <- expand Fun Is ;; Ok (TSeq type_list Us).

(** [detail::test_func2] (lines 968-971): the token of [2 * I]. *)
Definition test_func2 (I : Z) : compile ty :=
  Ok (integral_constant (size_t_wrap (2 * I))).

Section SubTuple.
(** The values a tuple holds; the tuple is the list of its elements. *)
Variable A : Type.

(** [std::get<I>(tup)]. *)
Definition get (tup : list A) (I : Z) : compile A :=
  match nth_error tup (Z.to_nat I) with
  | Some x => Ok x
  | None => Error index_out_of_range
  end.

(** [detail::sub_tuple_impl] (lines 803-806):
    [std::make_tuple(std::get<Begin + Is>(tup)...)]. *)
Definition sub_tuple_impl (Begin : Z) (tup : list A) (Is : list Z)
    : compile (list A) :=
  expand (fun I => get tup (size_t_wrap (Begin + I))) Is.

(** [sub_tuple] (lines 809-812): the indices are
    [std::make_integer_sequence<size_t, End - Begin>]. *)
Definition sub_tuple (Begin End : Z) (tup : list A) : compile (list A) :=
  N <- constant T_size_t (End - Begin) ;;
  Is <- make_integer_sequence N ;;
  sub_tuple_impl Begin tup Is.
End SubTuple.
Arguments get {A} tup I.
Arguments sub_tuple_impl {A} Begin tup Is.
Arguments sub_tuple {A} Begin End tup.

(** ** Reference notions used to state the properties *)

(** A pair of a map: a two-element type sequence of any shape. *)
Record entry : Set := mk_entry { shape : tag; key : ty; val : ty }.

Definition entry_ty (e : entry) : ty := TSeq (shape e) [key e; val e].

(** An inner sequence of a sequence of sequences. *)
Definition inner_seq (s : tag * list ty) : ty := TSeq (fst s) (snd s).

(** [true] exactly for a predicate that is well-formed and holds. *)
Definition holds (c : compile bool) : bool :=
  match c with
  | Ok b => b
  | Error _ => false
  end.

(** The integers of the half-open range from [Begin] to [End], ascending. *)
Definition ascending (Begin End : Z) : list Z :=
  map (fun k => Begin + Z.of_nat k) (seq 0 (Z.to_nat (End - Begin))).

(** The action that records the index it is called with. *)
Definition record_index (i : Z) (calls : list Z) : list Z := calls ++ [i].

(** Whether a type is a type sequence. *)
Definition is_type_sequence (T : ty) : bool :=
  match T with
  | TSeq _ _ => true
  | _ => false
  end.

(** The sum of a list of integers. *)
Definition total (Is : list Z) : Z := fold_right Z.add 0 Is.

(** Whether the filter keeps the inner sequence [si] for the criteria
    [Seq2]: [has_all_types(si, Seq2)] holds. *)
Definition kept (Seq2 : ty) (si : tag * list ty) : bool :=
  holds (has_all_types (inner_seq si) Seq2).

(** Whether [filter_have_type] keeps the inner sequence [si] for the type
    [C]: [has_type(si, C)] holds. *)
Definition kept_by_type (C : ty) (si : tag * list ty) : bool :=
  holds (has_type (inner_seq si) C).

(** Whether [filter_have_any_type] keeps the inner sequence [si] for the
    criteria [Seq2]: [has_any_type(si, Seq2)] holds. *)
Definition kept_by_any (Seq2 : ty) (si : tag * list ty) : bool :=
  holds (has_any_type (inner_seq si) Seq2).

(** The induction principle of [ty]: the premises cover the types inside a
    parameter list or a sequence. *)
Fixpoint ty_ind (P : ty -> Prop)
    (HB : forall b, P (Builtin b))
    (HC : forall name, P (Class name))
    (HVal : forall name v, P (Valued name v))
    (HConst : forall t, P t -> P (Const t))
    (HVol : forall t, P t -> P (Volatile t))
    (HL : forall t, P t -> P (LRef t))
    (HR : forall t, P t -> P (RRef t))
    (HP : forall t, P t -> P (Ptr t))
    (HA : forall t n, P t -> P (Arr t n))
    (HU : forall t, P t -> P (ArrU t))
    (HF : forall r ps, P r -> Forall P ps -> P (Fn r ps))
    (HI : forall v, P (integral_constant v))
    (HT : forall tg ts, Forall P ts -> P (TSeq tg ts))
    (HV : forall tg vs, P (VSeq tg vs))
    (t : ty) {struct t} : P t :=
  let rec := ty_ind P HB HC HVal HConst HVol HL HR HP HA HU HF HI HT HV in
  let fix all (ts : list ty) : Forall P ts :=
    match ts with
    | [] => Forall_nil P
    | x :: xs => Forall_cons x (rec x) (all xs)
    end in
  match t with
  | Builtin b => HB b
  | Class name => HC name
  | Valued name v => HVal name v
  | Const u => HConst u (rec u)
  | Volatile u => HVol u (rec u)
  | LRef u => HL u (rec u)
  | RRef u => HR u (rec u)
  | Ptr u => HP u (rec u)
  | Arr u n => HA u n (rec u)
  | ArrU u => HU u (rec u)
  | Fn r ps => HF r ps (rec r) (all ps)
  | integral_constant v => HI v
  | TSeq tg ts => HT tg ts (all ts)
  | VSeq tg vs => HV tg vs
  end.

(** * Properties *)

(** ** Identity of types *)

Lemma builtin_eqb_eq (a b : builtin) : builtin_eqb a b = true <-> a = b.
Proof. destruct a, b; simpl; split; intro H; try reflexivity; discriminate. Qed.

Lemma tag_eqb_eq (a b : tag) : tag_eqb a b = true <-> a = b.
Proof.
  destruct a, b; simpl; split; intro H; try reflexivity; try discriminate.
  - apply String.eqb_eq in H. now subst.
  - apply String.eqb_eq. now inversion H.
Qed.

Lemma vtag_eqb_eq (a b : vtag) : vtag_eqb a b = true <-> a = b.
Proof.
  destruct a, b; simpl; split; intro H; try reflexivity; try discriminate.
  - apply String.eqb_eq in H. now subst.
  - apply String.eqb_eq. now inversion H.
Qed.

Lemma Zlist_eqb_eq (xs ys : list Z) : Zlist_eqb xs ys = true <-> xs = ys.
Proof.
  revert ys. induction xs as [|x xs IH]; intros [|y ys]; simpl;
    split; intro H; try reflexivity; try discriminate.
  - apply andb_true_iff in H as [H1 H2].
    apply Z.eqb_eq in H1. apply IH in H2. now subst.
  - inversion H; subst. apply andb_true_iff. split.
    + apply Z.eqb_refl.
    + now apply IH.
Qed.

Lemma tys_eqb_eq (xs ys : list ty) :
  Forall (fun x => forall y, ty_eqb x y = true <-> x = y) xs ->
  tys_eqb xs ys = true <-> xs = ys.
Proof.
  intro H. revert ys.
  induction H as [|x xs Hx _ IH]; intros [|y ys]; simpl;
    split; intro E; try reflexivity; try discriminate.
  - apply andb_true_iff in E as [E1 E2].
    apply Hx in E1. apply IH in E2. now subst.
  - inversion E; subst. apply andb_true_iff. split.
    + now apply Hx.
    + now apply IH.
Qed.

(** [ty_eqb] decides the identity of types. *)
Lemma ty_eqb_eq (a b : ty) : ty_eqb a b = true <-> a = b.
Proof.
  revert b.
  induction a using ty_ind; intros [ ] ;
    try (simpl; split; intro E; discriminate).
  - simpl. rewrite builtin_eqb_eq. split; intro E; [now subst | now inversion E].
  - simpl. rewrite String.eqb_eq. split; intro E; [now subst | now inversion E].
  - simpl. rewrite andb_true_iff, String.eqb_eq, Z.eqb_eq.
    split; intro E; [destruct E; now subst | now inversion E].
  - simpl. rewrite IHa. split; intro E; [now subst | now inversion E].
  - simpl. rewrite IHa. split; intro E; [now subst | now inversion E].
  - simpl. rewrite IHa. split; intro E; [now subst | now inversion E].
  - simpl. rewrite IHa. split; intro E; [now subst | now inversion E].
  - simpl. rewrite IHa. split; intro E; [now subst | now inversion E].
  - simpl. rewrite andb_true_iff, IHa, Z.eqb_eq.
    split; intro E; [destruct E; now subst | now inversion E].
  - simpl. rewrite IHa. split; intro E; [now subst | now inversion E].
  - change (ty_eqb a r && tys_eqb ps params = true <-> Fn a ps = Fn r params).
    rewrite andb_true_iff, IHa, (tys_eqb_eq ps params H).
    split; intro E; [destruct E; now subst | now inversion E].
  - simpl. rewrite Z.eqb_eq. split; intro E; [now subst | now inversion E].
  - change (tag_eqb tg tg0 && tys_eqb ts ts0 = true <-> TSeq tg ts = TSeq tg0 ts0).
    rewrite andb_true_iff, tag_eqb_eq, (tys_eqb_eq ts ts0 H).
    split; intro E; [destruct E; now subst | now inversion E].
  - simpl. rewrite andb_true_iff, vtag_eqb_eq, Zlist_eqb_eq.
    split; intro E; [destruct E; now subst | now inversion E].
Qed.

Lemma ty_eqb_refl (a : ty) : ty_eqb a a = true.
Proof. now apply ty_eqb_eq. Qed.

Lemma ty_eqb_neq (a b : ty) : ty_eqb a b = false <-> a <> b.
Proof.
  rewrite <- ty_eqb_eq. destruct (ty_eqb a b); split; intro H;
    try reflexivity; try discriminate; try (intro; discriminate).
  now destruct H.
Qed.

(** ** The assertions of the header *)

(** The [static_assert]s of the header on the operations modelled here
    that do not go through [Nth_type]. *)
Lemma header_assertions :
  let d := Builtin Double in let c := Builtin Char in let b := Builtin Bool in
  let i := Builtin Int in let f := Builtin Float in
  let test_map := TSeq type_list [TSeq type_list [i; c]; TSeq type_list [f; d];
                                  TSeq type_list [d; f]] in
  size (TSeq type_list [d; c; b; d]) = Ok (integral_constant 4)
  /\ index_of (TSeq type_list [d; c; b; d]) c = Ok (integral_constant 1)
  /\ cat (TSeq type_list [d; i]) (TSeq type_list2 [c; f])
     = Ok (TSeq type_list [d; i; c; f])
  /\ transform (TSeq type_list [d; i]) (fun T => Ok (TSeq type_list2 [T]))
     = Ok (TSeq type_list [TSeq type_list2 [d]; TSeq type_list2 [i]])
  /\ is_same (TSeq type_list [d; i]) [d; i] = Ok true
  /\ has_type (TSeq type_list [d; i; c; d]) c = Ok true
  /\ has_type (TSeq type_list [d; i; c; d]) f = Ok false
  /\ erase_type (TSeq type_list [d; i; c; d]) d = Ok (TSeq type_list [i; c])
  /\ has_all_types (TSeq type_list [d; i; c]) (TSeq type_list [i; c]) = Ok true
  /\ has_all_types (TSeq type_list [d; i; c]) (TSeq type_list [b; c]) = Ok false
  /\ filter_have_all_types
       (TSeq type_list [TSeq type_list [c; f; i]; TSeq type_list [c; b; d];
                        TSeq type_list [f; d; c]])
       (TSeq type_list [c; f])
     = Ok (TSeq type_list [TSeq type_list [c; f; i]; TSeq type_list [f; d; c]])
  /\ type_to_value
       (TSeq type_list [integral_constant 2; integral_constant 4;
                        integral_constant 6])
     = Ok (VSeq value_list [2; 4; 6])
  /\ value_to_type (VSeq value_list [2; 4; 6])
     = Ok (TSeq type_list [integral_constant 2; integral_constant 4;
                           integral_constant 6]).
Proof. repeat split; reflexivity. Qed.

(** The [static_assert]s of lines 95, 105, 119, 648 and 649 name
    [Nth_type], directly or through [front], [back] and [map]: the
    instantiations they assert are rejected, whereas the body of line 88 alone
    gives the asserted types. *)
Lemma header_assertions_through_Nth_type :
  let d := Builtin Double in let c := Builtin Char in let b := Builtin Bool in
  let i := Builtin Int in let f := Builtin Float in
  let test_map := TSeq type_list [TSeq type_list [i; c]; TSeq type_list [f; d];
                                  TSeq type_list [d; f]] in
  Nth_type (TSeq type_list [d; c; b; d]) 1 = Error incomplete_type
  /\ front (TSeq type_list [d; c; b; f]) = Error incomplete_type
  /\ back (TSeq type_list [d; c; b; f]) = Error incomplete_type
  /\ map_impl test_map i f = Error incomplete_type
  /\ map_impl test_map c f = Error incomplete_type
  /\ tuple_element 1 [d; c; b; d] = Ok c
  /\ tuple_element 0 [d; c; b; f] = Ok d
  /\ tuple_element 3 [d; c; b; f] = Ok f.
Proof. repeat split; reflexivity. Qed.

(** ** Concatenation *)

(** With a non-empty first sequence exactly one specialisation of
    [cat_impl] matches at every step, and the result is the first pack
    followed by the second, in the shape of the first. *)
Lemma cat_impl_nonempty (Seq1 : tag) (Ts2 : list ty) :
  forall Ts1, Ts1 <> [] -> cat_impl Seq1 Ts1 Ts2 = Ok (TSeq Seq1 (Ts1 ++ Ts2)).
Proof.
  induction Ts2 as [|T Ts2 IH]; intros [|T1 Ts1] H; try congruence.
  - cbn. now rewrite app_nil_r.
  - cbn. fold (cat_impl Seq1). change (T1 :: Ts1 ++ [T]) with ((T1 :: Ts1) ++ [T]).
    rewrite IH.
    + now rewrite <- app_assoc.
    + now destruct Ts1.
Qed.

Lemma cat_singleton (Seq1 Seq2 : tag) (T : ty) (Ts : list ty) :
  cat (TSeq Seq1 [T]) (TSeq Seq2 Ts) = Ok (TSeq Seq1 (T :: Ts)).
Proof. unfold cat. now rewrite cat_impl_nonempty. Qed.

(** Concatenation behind a non-empty first sequence: the elements of the
    first, then those of the second, in the shape of the first, and the sizes
    add up. *)
Lemma cat_behind_nonempty (Seq1 Seq2 : tag) (T : ty) (Ts1 Ts2 : list ty) :
  cat (TSeq Seq1 (T :: Ts1)) (TSeq Seq2 Ts2) = Ok (TSeq Seq1 ((T :: Ts1) ++ Ts2))
  /\ size (TSeq Seq1 ((T :: Ts1) ++ Ts2))
     = Ok (integral_constant
             (Z.of_nat (length (T :: Ts1)) + Z.of_nat (length Ts2))).
Proof.
  split.
  - unfold cat. now rewrite cat_impl_nonempty.
  - unfold size. now rewrite length_app, Nat2Z.inj_add.
Qed.

(** An empty first sequence is matched by line 161 and by one of lines 166
    and 171, neither of which is more specialised than line 161. *)
Lemma cat_impl_first_empty (Seq1 : tag) (Ts2 : list ty) :
  cat_impl Seq1 [] Ts2 = Error ambiguous_specialization.
Proof. now destruct Ts2. Qed.

(** C6. The header announces [cat] as the concatenation of two type lists
    in the shape of the first (line 154), and line 161 is written for an empty
    first list.  For two empty lists lines 161 and 166 both match and neither is
    more specialised: [cat<type_list<>, type_list<>>] is rejected as
    ambiguous, where the specification asks for the empty [type_list] of size 0. *)
Theorem cat_of_two_empty_lists_is_ambiguous :
  cat (TSeq type_list []) (TSeq type_list []) = Error ambiguous_specialization
  /\ filter (fun s => matches2 (cat_pattern s) [] []) cat_specializations
     = [cat_first_empty; cat_second_empty]
  /\ more_specialized2 (cat_pattern cat_first_empty) (cat_pattern cat_second_empty) = false
  /\ more_specialized2 (cat_pattern cat_second_empty) (cat_pattern cat_first_empty) = false.
Proof. repeat split; reflexivity. Qed.

(** ** Erasure *)

Lemma erase_type_impl_filter (Seq : tag) (C : ty) (Ts : list ty) :
  erase_type_impl Seq Ts C
  = Ok (TSeq Seq (filter (fun T => negb (ty_eqb T C)) Ts)).
Proof.
  induction Ts as [|T Ts IH]; [reflexivity|].
  cbn [erase_type_impl]. rewrite IH. cbn [bind]. rewrite cat_singleton.
  cbn [bind conditional filter]. now destruct (ty_eqb T C).
Qed.

(** C7. [erase_type(seq, T)] is [seq] without any occurrence of [T], the
    other elements in their order: the result is well-formed, has the shape
    of [seq], holds exactly the elements of [seq] that differ from [T] in the
    order they have in [seq], does not contain [T], and
    [erase_type({double, int, char, double}, double)] is [{int, char}]. *)
Theorem erase_type_removes_every_occurrence (Seq : tag) (Ts : list ty) (T : ty) :
  erase_type (TSeq Seq Ts) T
  = Ok (TSeq Seq (filter (fun U => negb (ty_eqb U T)) Ts))
  /\ ~ In T (filter (fun U => negb (ty_eqb U T)) Ts)
  /\ (forall U, U <> T ->
        (In U (filter (fun U => negb (ty_eqb U T)) Ts) <-> In U Ts))
  /\ erase_type
       (TSeq type_list [Builtin Double; Builtin Int; Builtin Char; Builtin Double])
       (Builtin Double)
     = Ok (TSeq type_list [Builtin Int; Builtin Char]).
Proof.
  split; [apply erase_type_impl_filter|].
  split; [|split; [|reflexivity]].
  - intro H. apply filter_In in H as [_ H].
    now rewrite ty_eqb_refl in H.
  - intros U HU. rewrite filter_In. split; [tauto|].
    intro H. split; [exact H|].
    apply negb_true_iff. now apply ty_eqb_neq.
Qed.

(** ** Membership and filters *)

Lemma fold_orb_existsb {A : Type} (p : A -> bool) (l : list A) :
  fold_right orb false (map p l) = existsb p l.
Proof. induction l as [|x l IH]; simpl; [reflexivity | now rewrite IH]. Qed.

Lemma has_type_seq (Seq : tag) (Ts : list ty) (T : ty) :
  has_type (TSeq Seq Ts) T = Ok (existsb (fun U => ty_eqb T U) Ts).
Proof.
  destruct Ts as [|U Ts]; [reflexivity|].
  unfold has_type. now rewrite fold_orb_existsb.
Qed.

Lemma has_type_In (Seq : tag) (Ts : list ty) (T : ty) :
  has_type (TSeq Seq Ts) T = Ok true <-> In T Ts.
Proof.
  rewrite has_type_seq. split.
  - intro H. injection H as H. apply existsb_exists in H as [U [HU E]].
    apply ty_eqb_eq in E. now subst.
  - intro H. f_equal. apply existsb_exists. exists T. split; [exact H|].
    apply ty_eqb_refl.
Qed.

Lemma expand_total {A B : Type} (F : A -> compile B) (g : A -> B) (l : list A) :
  (forall a, F a = Ok (g a)) -> expand F l = Ok (map g l).
Proof.
  intro H. induction l as [|a l IH]; [reflexivity|].
  cbn [expand]. rewrite H, IH. reflexivity.
Qed.

Lemma fold_andb_forallb {A : Type} (p : A -> bool) (l : list A) :
  fold_right andb true (map p l) = forallb p l.
Proof. induction l as [|x l IH]; simpl; [reflexivity | now rewrite IH]. Qed.

Lemma has_all_types_seq (Seq1 Seq2 : tag) (Ts1 Ts2 : list ty) :
  has_all_types (TSeq Seq1 Ts1) (TSeq Seq2 Ts2)
  = Ok (forallb (fun T2 => existsb (fun U => ty_eqb T2 U) Ts1) Ts2).
Proof.
  unfold has_all_types.
  rewrite (expand_total _ (fun T2 => existsb (fun U => ty_eqb T2 U) Ts1)).
  - cbn [bind]. now rewrite fold_andb_forallb.
  - intro T2. apply has_type_seq.
Qed.

(** [has_all_types(Seq1, Seq2)] holds exactly when every element of
    [Seq2] occurs in [Seq1]. *)
Lemma has_all_types_incl (Seq1 Seq2 : tag) (Ts1 Ts2 : list ty) :
  has_all_types (TSeq Seq1 Ts1) (TSeq Seq2 Ts2) = Ok true <-> incl Ts2 Ts1.
Proof.
  rewrite has_all_types_seq. split.
  - intros H C HC. injection H as H.
    rewrite forallb_forall in H. specialize (H C HC).
    apply existsb_exists in H as [U [HU E]]. apply ty_eqb_eq in E. now subst.
  - intro H. f_equal. apply forallb_forall. intros C HC.
    apply existsb_exists. exists C. split; [now apply H | apply ty_eqb_refl].
Qed.

Lemma filter_have_all_types_impl_filter (Seq1 Seq2 : tag) (Cs : list ty)
    (S : list (tag * list ty)) :
  filter_have_all_types_impl Seq1 (map inner_seq S) (TSeq Seq2 Cs)
  = Ok (TSeq Seq1 (map inner_seq (filter (kept (TSeq Seq2 Cs)) S))).
Proof.
  induction S as [|[g Ts] S IH]; [reflexivity|].
  cbn [map filter_have_all_types_impl]. rewrite IH. cbn [bind].
  rewrite cat_singleton. cbn [bind filter].
  assert (K : kept (TSeq Seq2 Cs) (g, Ts)
              = forallb (fun T2 => existsb (fun U => ty_eqb T2 U) Ts) Cs).
  { unfold kept. change (inner_seq (g, Ts)) with (TSeq g Ts).
    now rewrite has_all_types_seq. }
  rewrite K. change (inner_seq (g, Ts)) with (TSeq g Ts).
  rewrite has_all_types_seq. cbn [bind conditional].
  now destruct (forallb _ Cs).
Qed.

(** C8. [filter_have_all_types(S, Cs)] is well-formed for every sequence
    of sequences [S] and criterion sequence [Cs], has the shape of [S], and
    holds exactly the inner sequences [si] for which [has_all_types(si, Cs)]
    holds, in the order they have in [S]; [has_all_types(si, Cs)] holds
    exactly when every element of [Cs] occurs in [si]; and the result is the
    empty sequence exactly when no inner sequence is kept. *)
Theorem filter_have_all_types_keeps_matching (Seq1 Seq2 : tag) (Cs : list ty)
    (S : list (tag * list ty)) :
  filter_have_all_types (TSeq Seq1 (map inner_seq S)) (TSeq Seq2 Cs)
  = Ok (TSeq Seq1 (map inner_seq (filter (kept (TSeq Seq2 Cs)) S)))
  /\ (forall si, kept (TSeq Seq2 Cs) si = true <-> incl Cs (snd si))
  /\ (filter_have_all_types (TSeq Seq1 (map inner_seq S)) (TSeq Seq2 Cs)
      = Ok (TSeq Seq1 [])
      <-> forall si, In si S -> kept (TSeq Seq2 Cs) si = false).
Proof.
  assert (E : filter_have_all_types (TSeq Seq1 (map inner_seq S)) (TSeq Seq2 Cs)
              = Ok (TSeq Seq1 (map inner_seq (filter (kept (TSeq Seq2 Cs)) S))))
    by apply filter_have_all_types_impl_filter.
  split; [exact E|]. split.
  - intros [g Ts]. unfold kept, inner_seq. cbn [fst snd].
    rewrite <- (has_all_types_incl g Seq2 Ts Cs).
    destruct (has_all_types (TSeq g Ts) (TSeq Seq2 Cs)) as [[|]|d]; simpl;
      split; intro H; try reflexivity; try discriminate.
  - rewrite E. split.
    + intros H si Hsi. injection H as H. apply map_eq_nil in H.
      destruct (kept (TSeq Seq2 Cs) si) eqn:K; [|reflexivity].
      assert (In si (filter (kept (TSeq Seq2 Cs)) S)) as HIn
        by (apply filter_In; now split).
      rewrite H in HIn. destruct HIn.
    + intro H. do 2 f_equal.
      induction S as [|si S IH]; [reflexivity|].
      cbn [filter]. rewrite (H si (or_introl eq_refl)).
      apply IH.
      * apply filter_have_all_types_impl_filter.
      * intros sj Hsj. apply H. now right.
Qed.

(** ** Position of a type *)

Lemma size_t_wrap_small (z : Z) : 0 <= z < 2 ^ 64 -> size_t_wrap z = z.
Proof. intro H. unfold size_t_wrap. now apply Z.mod_small. Qed.

(** Below a type that does not occur, line 141 adds one for every element
    on top of the [SIZE_MAX] of line 135: the sum wraps around. *)
Lemma index_of_impl_absent (Ts : list ty) (T : ty) :
  ~ In T Ts ->
  index_of_impl Ts T = size_t_wrap (SIZE_MAX + Z.of_nat (length Ts)).
Proof.
  induction Ts as [|U Ts IH]; intro H.
  - reflexivity.
  - cbn [index_of_impl].
    assert (E : ty_eqb U T = false)
      by (apply ty_eqb_neq; intro; subst; apply H; now left).
    rewrite E, IH by (intro; apply H; now right).
    unfold size_t_wrap. rewrite Zplus_mod_idemp_r. f_equal.
    cbn [length]. lia.
Qed.

Lemma index_of_impl_absent_nonempty (Ts : list ty) (T : ty) :
  ~ In T Ts -> Ts <> [] -> Z.of_nat (length Ts) <= 2 ^ 64 ->
  index_of_impl Ts T = Z.of_nat (length Ts) - 1.
Proof.
  intros H HT Hlen. rewrite index_of_impl_absent by exact H.
  assert (0 < Z.of_nat (length Ts)) by (destruct Ts; [congruence | cbn [length]; lia]).
  unfold size_t_wrap, SIZE_MAX.
  replace (2 ^ 64 - 1 + Z.of_nat (length Ts))
    with (Z.of_nat (length Ts) - 1 + 1 * 2 ^ 64) by lia.
  rewrite Z.mod_add by lia. apply Z.mod_small. lia.
Qed.

(** The position of the first occurrence. *)
Lemma index_of_impl_first (pre post : list ty) (T : ty) :
  ~ In T pre -> Z.of_nat (length pre) < 2 ^ 64 ->
  index_of_impl (pre ++ T :: post) T = Z.of_nat (length pre).
Proof.
  induction pre as [|U pre IH]; intros H Hlen.
  - cbn. now rewrite ty_eqb_refl.
  - cbn [app index_of_impl].
    assert (E : ty_eqb U T = false)
      by (apply ty_eqb_neq; intro; subst; apply H; now left).
    rewrite E, IH.
    + cbn [length] in *. rewrite size_t_wrap_small; lia.
    + intro; apply H; now right.
    + cbn [length] in Hlen. lia.
Qed.

(** C1. Line 135 gives [SIZE_MAX] for the empty sequence, the value meant
    for a type that is not found; for a non-empty sequence without [T] line 141
    adds one per element and the sum wraps around to the last position.
    [index_of<type_list<double>, char>] is 0, the very result of
    [index_of<type_list<double>, double>]; for the header's own list
    [{double, char, bool, double}] the absent [float] gives 3; and after
    [erase_type({double, int, char, double}, double)] the index of [double]
    is 1.  None of them is [SIZE_MAX]. *)
Theorem index_of_absent_type_wraps_around :
  index_of (TSeq type_list [Builtin Double]) (Builtin Char)
  = Ok (integral_constant 0)
  /\ index_of (TSeq type_list [Builtin Double]) (Builtin Double)
     = Ok (integral_constant 0)
  /\ index_of
       (TSeq type_list [Builtin Double; Builtin Char; Builtin Bool; Builtin Double])
       (Builtin Float)
     = Ok (integral_constant 3)
  /\ (Seq <- erase_type
         (TSeq type_list [Builtin Double; Builtin Int; Builtin Char; Builtin Double])
         (Builtin Double) ;;
      index_of Seq (Builtin Double))
     = Ok (integral_constant 1)
  /\ SIZE_MAX = 18446744073709551615.
Proof. repeat split; reflexivity. Qed.

(** ** Lookup in a map *)

(** The index of the specialisation is an [int], that of the primary
    template a [size_t]: the specialisation is deduced for no index, and
    [Nth_type] is left with its declaration for every argument. *)
Lemma Nth_type_incomplete (Seq : ty) (N : Z) :
  Nth_type Seq N = Error incomplete_type.
Proof. now destruct Seq. Qed.

(** [map] names [Nth_type] for every map: through [front] for the first
    pair of a map that has pairs (line 631), and directly for the empty map
    (line 634). *)
Lemma map_impl_incomplete (Map Key Default : ty) :
  map_impl Map Key Default = Error incomplete_type.
Proof.
  unfold map_impl. destruct Map; try reflexivity.
  destruct ts as [|T ts]; [reflexivity|].
  cbn [transform expand]. unfold front. now rewrite Nth_type_incomplete.
Qed.

(** C4. The header asserts [map<test_map, int, float>] to be [char], the
    value of the pair with the key [int] (line 648).  [map] takes the keys by
    [transform<Map, front>] (line 631), [front] is [Nth_type<Seq, 0>], and the
    only specialisation of [detail::Nth_type_impl] declares its index as
    [int N] (line 86) against the [size_t N] of the primary template
    (line 83): it is not deduced, and [map] is rejected for the map of the
    header and for every map [pre ++ e :: post] that holds a pair [e] for the
    key, where the specification asks for the value of the first such pair.
    The body of line 88 alone would give the key and the value of a pair. *)
Theorem map_of_a_present_key_is_rejected (Seq : tag) (pre post : list entry)
    (e : entry) (Key Default : ty) :
  map_impl
    (TSeq type_list
       [TSeq type_list [Builtin Int; Builtin Char];
        TSeq type_list [Builtin Float; Builtin Double];
        TSeq type_list [Builtin Double; Builtin Float]])
    (Builtin Int) (Builtin Float)
  = Error incomplete_type
  /\ map_impl (TSeq Seq (map entry_ty (pre ++ e :: post))) (key e) Default
     = Error incomplete_type
  /\ front (entry_ty e) = Error incomplete_type
  /\ index_deducible Nth_type_primary_index Nth_type_specialization_index = false
  /\ tuple_element 0 [key e; val e] = Ok (key e)
  /\ tuple_element 1 [key e; val e] = Ok (val e).
Proof.
  split; [reflexivity|]. split; [apply map_impl_incomplete|].
  repeat split.
Qed.

(** C2. The header announces [map] as giving the default type when the
    key is not found (line 626).  Line 634 forms the value at
    [index_of<Keys, Key>] before [std::conditional] chooses; for the empty map
    that index is [SIZE_MAX] and the empty sequence has no element there, nor
    does [Nth_type] serve any index:
    [map<type_list<>, Key, Default>] is rejected for every [Key] and
    [Default], where the specification asks for [Default]. *)
Theorem map_of_empty_map_is_rejected (Seq : tag) (Key Default : ty) :
  map_impl (TSeq Seq []) Key Default = Error incomplete_type
  /\ has_type (TSeq Seq []) Key = Ok false
  /\ index_of (TSeq Seq []) Key = Ok (integral_constant SIZE_MAX)
  /\ (forall N, exists d, Nth_type (TSeq Seq []) N = Error d)
  /\ (forall N, tuple_element N [] = Error index_out_of_range).
Proof.
  repeat split.
  - intro N. now exists incomplete_type.
  - intro N. unfold tuple_element.
    destruct (0 <=? N); [|reflexivity]. now destruct (Z.to_nat N).
Qed.

(** ** Comparison with an argument list *)

Lemma expand2_same_length {A B C : Type} (F : A -> B -> C) (Ts : list A) :
  forall Args, length Ts = length Args ->
  expand2 F Ts Args = Ok (map (fun p => F (fst p) (snd p)) (combine Ts Args)).
Proof.
  induction Ts as [|T Ts IH]; intros [|A0 Args] H; try discriminate.
  - reflexivity.
  - cbn [expand2]. rewrite IH by (now injection H). reflexivity.
Qed.

Lemma expand2_other_length {A B C : Type} (F : A -> B -> C) (Ts : list A) :
  forall Args, length Ts <> length Args ->
  expand2 F Ts Args = Error pack_length_mismatch.
Proof.
  induction Ts as [|T Ts IH]; intros [|A0 Args] H; try reflexivity.
  - now destruct H.
  - cbn [expand2]. rewrite IH; [reflexivity|].
    intro E. apply H. cbn [length]. now rewrite E.
Qed.

(** Two packs of different lengths in the one expansion of line 315: the
    comparison of the sizes in front of the fold does not help. *)
Lemma is_same_other_arity (Seq : tag) (Ts Args : list ty) :
  length Ts <> length Args ->
  is_same (TSeq Seq Ts) Args = Error pack_length_mismatch.
Proof. intro H. unfold is_same. now rewrite expand2_other_length. Qed.

Lemma forallb_combine_Forall2 (Ts : list ty) :
  forall Args, length Ts = length Args ->
  forallb (fun p => ty_eqb (decay (fst p)) (decay (snd p))) (combine Ts Args) = true
  <-> Forall2 (fun T A => decay T = decay A) Ts Args.
Proof.
  induction Ts as [|T Ts IH]; intros [|A0 Args] H; try discriminate.
  - split; [constructor | reflexivity].
  - cbn [combine forallb fst snd]. rewrite andb_true_iff, ty_eqb_eq.
    rewrite IH by (now injection H). split.
    + intros [H1 H2]. now constructor.
    + intro H2. inversion H2; subst. now split.
Qed.

(** C3. Line 315 compares the sizes of the two packs before the fold, to
    give [false] for a different arity; the fold expands both packs together,
    which is ill-formed for packs of different lengths.
    [is_same<type_list<double, int>, double>::value] is rejected, as are one
    argument too many and a non-empty list against no argument, where the
    property asks for [false]. *)
Theorem is_same_of_other_arity_is_rejected :
  is_same (TSeq type_list [Builtin Double; Builtin Int]) [Builtin Double]
  = Error pack_length_mismatch
  /\ is_same (TSeq type_list [Builtin Double; Builtin Int])
       [Builtin Double; Builtin Int; Builtin Char]
     = Error pack_length_mismatch
  /\ is_same (TSeq type_list [Builtin Double]) [] = Error pack_length_mismatch
  /\ is_same (TSeq type_list [Builtin Double; Builtin Int])
       [Builtin Double; Builtin Int]
     = Ok true.
Proof. repeat split; reflexivity. Qed.

(** C10. For a sequence and arguments of the same arity [is_same] is a
    boolean, [true] exactly when every element and its argument are the same
    type after [std::decay]; [std::decay] drops a reference and the top-level
    qualifiers, and also turns an array into the pointer to its element and a
    function into the pointer to it, so that a sequence holding [E*] is the
    same as the argument [E[n]]. *)
Theorem is_same_compares_decayed_types (Seq : tag) (Ts Args : list ty) :
  length Ts = length Args ->
  (exists b, is_same (TSeq Seq Ts) Args = Ok b
             /\ (b = true <-> Forall2 (fun T A => decay T = decay A) Ts Args))
  /\ (forall E n, decay (Arr E n) = Ptr E /\ decay (ArrU E) = Ptr E
                  /\ decay (LRef (Arr E n)) = Ptr E)
  /\ (forall R Ps, decay (Fn R Ps) = Ptr (Fn R Ps))
  /\ (forall b, decay (Const (Builtin b)) = Builtin b
                /\ decay (LRef (Const (Builtin b))) = Builtin b
                /\ decay (RRef (Builtin b)) = Builtin b)
  /\ (forall E n, is_same (TSeq Seq [Ptr E]) [Arr E n] = Ok true)
  /\ (forall R Ps, is_same (TSeq Seq [Ptr (Fn R Ps)]) [Fn R Ps] = Ok true).
Proof.
  intro H. split; [|repeat split].
  - exists (forallb (fun p => ty_eqb (decay (fst p)) (decay (snd p))) (combine Ts Args)).
    split.
    + unfold is_same. rewrite expand2_same_length by exact H. cbn [bind].
      rewrite fold_andb_forallb, H, Nat.eqb_refl. reflexivity.
    + now apply forallb_combine_Forall2.
  - intros E n. unfold is_same. cbn. now rewrite ty_eqb_refl.
  - intros R Ps. unfold is_same. cbn [expand2 bind decay remove_reference].
    now rewrite ty_eqb_refl.
Qed.

(** The property at the example of a sequence holding [int*] matched with
    the argument [int[3]]. *)
Lemma is_same_compares_decayed_types_witness :
  exists b, is_same (TSeq type_list [Ptr (Builtin Int)]) [Arr (Builtin Int) 3] = Ok b
            /\ (b = true <->
                Forall2 (fun T A => decay T = decay A)
                  [Ptr (Builtin Int)] [Arr (Builtin Int) 3]).
Proof.
  apply (is_same_compares_decayed_types type_list
           [Ptr (Builtin Int)] [Arr (Builtin Int) 3]).
  reflexivity.
Defined.

(** ** Value sequences *)

Lemma expand_value_integral_constant (Is : list Z) :
  expand value (map integral_constant Is) = Ok Is.
Proof.
  induction Is as [|I Is IH]; [reflexivity|].
  cbn [map expand value bind]. now rewrite IH.
Qed.

(** C5, counterexample. The round trip of a value sequence of the host
    program, [my_values<1, 2>], comes back as [value_list<1, 2>], another
    type. *)
Lemma round_trip_changes_the_shape :
  (Seq <- value_to_type (VSeq (user_value_template "my_values") [1; 2]) ;;
   type_to_value Seq)
  = Ok (VSeq value_list [1; 2])
  /\ (Seq <- value_to_type (VSeq (user_value_template "my_values") [1; 2]) ;;
      type_to_value Seq)
     <> Ok (VSeq (user_value_template "my_values") [1; 2]).
Proof. split; [reflexivity | discriminate]. Qed.

(** C5, amended. For every value sequence [V], of any shape and also the
    empty one, [type_to_value(value_to_type(V))] is well-formed and is the
    [value_list] of the integers of [V] in their order; it is [V] itself when
    [V] is a [value_list]. *)
Theorem round_trip_gives_value_list (Seq : vtag) (Is : list Z) :
  (Ts <- value_to_type (VSeq Seq Is) ;; type_to_value Ts)
  = Ok (VSeq value_list Is)
  /\ (Ts <- value_to_type (VSeq value_list Is) ;; type_to_value Ts)
     = Ok (VSeq value_list Is).
Proof.
  split; cbn [value_to_type bind type_to_value];
    now rewrite expand_value_integral_constant.
Qed.

(** ** Bounded iteration *)

Lemma constant_representable (T : int_type) (z : Z) :
  representable T z = true -> constant T z = Ok z.
Proof.
  intro H. destruct T; unfold constant; cbn [is_signed];
    try (rewrite H; reflexivity);
    f_equal; apply Z.mod_small;
    unfold representable, min_of, max_of in H; cbn [is_signed bits] in *;
    apply andb_true_iff in H as [H1 H2];
    apply Z.leb_le in H1, H2; lia.
Qed.

Lemma representable_between (T : int_type) (a b z : Z) :
  representable T a = true -> representable T b = true ->
  a <= z <= b -> representable T z = true.
Proof.
  unfold representable. intros Ha Hb Hz.
  apply andb_true_iff in Ha as [Ha _]. apply andb_true_iff in Hb as [_ Hb].
  apply Z.leb_le in Ha, Hb.
  apply andb_true_iff. split; apply Z.leb_le; lia.
Qed.

(** For an unsigned index type the difference of two bounds in order is
    always a value of the type. *)
Lemma unsigned_difference_representable (T : int_type) (Begin End : Z) :
  is_signed T = false ->
  representable T Begin = true -> representable T End = true ->
  Begin <= End -> representable T (End - Begin) = true.
Proof.
  intros S HB HE Hle. unfold representable, min_of in *. rewrite S in *.
  apply andb_true_iff in HB as [HB _]. apply andb_true_iff in HE as [_ HE].
  apply Z.leb_le in HB, HE.
  apply andb_true_iff. split; apply Z.leb_le; lia.
Qed.

Lemma expand_indices (T : int_type) (Begin End : Z) (n : nat) :
  forall start,
  representable T Begin = true -> representable T End = true ->
  Z.of_nat (start + n) <= End - Begin ->
  expand (fun I => constant T (Begin + I)) (map Z.of_nat (seq start n))
  = Ok (map (fun k => Begin + Z.of_nat k) (seq start n)).
Proof.
  induction n as [|n IH]; intros start HB HE Hn; [reflexivity|].
  cbn [seq map expand].
  rewrite constant_representable
    by (apply (representable_between T Begin End); try assumption; lia).
  cbn [bind]. rewrite IH by (try assumption; lia). reflexivity.
Qed.

Lemma fold_record_index (l calls : list Z) :
  fold_left (fun s i => record_index i s) l calls = calls ++ l.
Proof.
  revert calls. induction l as [|i l IH]; intro calls; cbn [fold_left].
  - now rewrite app_nil_r.
  - rewrite IH. unfold record_index. now rewrite <- app_assoc.
Qed.

(** C9, counterexample. [static_for<int, INT_MIN, INT_MAX>]: the bounds
    are in order, and the length [End - Begin] of line 684 is no value of
    [int]; the call is rejected and [f] is never called. *)
Lemma static_for_over_all_int_is_rejected :
  INT_MIN <= INT_MAX
  /\ static_for record_index T_int INT_MIN INT_MAX [] = Error not_a_constant
  /\ static_for record_index T_int INT_MIN INT_MAX []
     <> Ok (ascending INT_MIN INT_MAX).
Proof.
  assert (E : static_for record_index T_int INT_MIN INT_MAX []
              = Error not_a_constant) by reflexivity.
  split; [vm_compute; discriminate|]. split; [exact E|].
  rewrite E. discriminate.
Qed.

(** C9, amended. For bounds [Begin <= End] of the index type [T] whose
    difference [End - Begin] is a value of [T] as well (which it always is for
    an unsigned [T]), [static_for(Begin, End, f)] is well-formed and calls [f]
    once for each integer of the range from [Begin] up to but without [End],
    in ascending order and without leaving early: the final state is the fold
    of [f] over that range, and the indices an action records are exactly
    that range. *)
Theorem static_for_calls_every_index_in_order (St : Type) (f : Z -> St -> St)
    (T : int_type) (Begin End : Z) (s : St) :
  representable T Begin = true ->
  representable T End = true ->
  Begin <= End ->
  representable T (End - Begin) = true ->
  static_for f T Begin End s
  = Ok (fold_left (fun s i => f i s) (ascending Begin End) s)
  /\ static_for record_index T Begin End [] = Ok (ascending Begin End)
  /\ length (ascending Begin End) = Z.to_nat (End - Begin)
  /\ (forall k, (k < Z.to_nat (End - Begin))%nat ->
        nth_error (ascending Begin End) k = Some (Begin + Z.of_nat k)).
Proof.
  intros HB HE Hle HD.
  assert (Run : forall (St' : Type) (g : Z -> St' -> St') (s' : St'),
            static_for g T Begin End s'
            = Ok (fold_left (fun s i => g i s) (ascending Begin End) s')).
  { intros St' g s'. unfold static_for.
    rewrite constant_representable by exact HD. cbn [bind].
    unfold make_integer_sequence.
    replace (End - Begin <? 0) with false by (symmetry; apply Z.ltb_ge; lia).
    cbn [bind]. unfold static_for_impl.
    rewrite (expand_indices T Begin End) by (try assumption; lia).
    reflexivity. }
  split; [apply Run|]. split; [|split].
  - rewrite Run, fold_record_index. reflexivity.
  - unfold ascending. now rewrite length_map, length_seq.
  - intros k Hk. unfold ascending.
    rewrite nth_error_map, nth_error_seq.
    apply Nat.ltb_lt in Hk. now rewrite Hk.
Qed.

(** The property for the loop of [detail::f] (line 690), over the four
    positions of a list. *)
Lemma static_for_calls_every_index_in_order_witness :
  static_for record_index T_int 0 4 [] = Ok [0; 1; 2; 3].
Proof.
  apply (static_for_calls_every_index_in_order (list Z) record_index T_int 0 4 []);
    try reflexivity.
  vm_compute. discriminate.
Defined.

(** * Further properties *)

(** ** The further assertions of the header *)

(** The [static_assert]s of the header on the further operations that do
    not go through [Nth_type]. *)
Lemma header_assertions_further :
  let d := Builtin Double in let c := Builtin Char in let b := Builtin Bool in
  let i := Builtin Int in let f := Builtin Float in
  let ic := integral_constant in
  substitute (TSeq type_list [d; i; c]) type_list2 = Ok (TSeq type_list2 [d; i; c])
  /\ transfer (TSeq type_list [TSeq type_list [d; i]]) type_list2
     = Ok (TSeq type_list [TSeq type_list2 [d; i]])
  /\ erase_Nth (TSeq type_list [d; c; b; d]) 1 = Ok (TSeq type_list [d; b; d])
  /\ erase_Nth (TSeq type_list [d; c; b; d]) 0 = Ok (TSeq type_list [c; b; d])
  /\ erase_Nth (TSeq type_list [d; c; b; d]) 3 = Ok (TSeq type_list [d; c; b])
  /\ has_any_type (TSeq type_list [d; i; c]) (TSeq type_list [i; f]) = Ok true
  /\ has_any_type (TSeq type_list [d; i; c]) (TSeq type_list [b; f]) = Ok false
  /\ filter_have_type (TSeq type_list [TSeq type_list [c; f]; TSeq type_list [c; i; d]]) f
     = Ok (TSeq type_list [TSeq type_list [c; f]])
  /\ filter_have_type
       (TSeq type_list [TSeq type_list [c; f]; TSeq type_list [b; d];
                        TSeq type_list [f; d]]) f
     = Ok (TSeq type_list [TSeq type_list [c; f]; TSeq type_list [f; d]])
  /\ filter_have_any_type
       (TSeq type_list [TSeq type_list [c; i]; TSeq type_list [b; d];
                        TSeq type_list [f; d; c]])
       (TSeq type_list [c; f])
     = Ok (TSeq type_list [TSeq type_list [c; i]; TSeq type_list [f; d; c]])
  /\ sum (TSeq type_list [ic 1; ic 2; ic 3]) = Ok (ic 6)
  /\ function (TSeq type_list [ic 1; ic 2; ic 3]) test_func
     = Ok (TSeq type_list [ic 2; ic 4; ic 6])
  /\ size_value (VSeq value_list [1; 2; 5]) = Ok (ic 3)
  /\ sum_value [1; 2; 3] = ic 6
  /\ function_value test_func2 [1; 2; 3] = Ok (TSeq type_list [ic 2; ic 4; ic 6])
  /\ sub_tuple 2 4 [1; 10; 45; 67; 50] = Ok [45; 67].
Proof. repeat split; reflexivity. Qed.

(** ** Ends and positions of a sequence *)

(** X1. [Nth_type], [front] and [back] are rejected for every argument
    and every index: the only specialisation of [detail::Nth_type_impl]
    declares its index as [int N] (line 86) against the [size_t N] of the
    primary template (line 83) and is never deduced, so that the assertions of
    lines 95, 105 and 119 do not hold, although the body of line 88 gives the
    asserted element. *)
Theorem Nth_type_front_and_back_are_rejected (Seq : ty) (N : Z) :
  Nth_type Seq N = Error incomplete_type
  /\ front Seq = Error incomplete_type
  /\ back Seq = Error incomplete_type
  /\ index_deducible Nth_type_primary_index Nth_type_specialization_index = false
  /\ tuple_element 1 [Builtin Double; Builtin Char; Builtin Bool; Builtin Double]
     = Ok (Builtin Char).
Proof.
  split; [apply Nth_type_incomplete|]. split; [apply Nth_type_incomplete|].
  split; [|split; reflexivity].
  unfold back. destruct Seq; reflexivity.
Qed.

(** X3. [cat] is associative on non-empty sequences: for non-empty [A]
    and [B] and any [C], [cat(cat(A, B), C)] and [cat(A, cat(B, C))] are the
    same sequence, in the shape of [A]. *)
Theorem cat_is_associative (Seq1 Seq2 Seq3 : tag) (A B : ty) (As Bs Cs : list ty) :
  (AB <- cat (TSeq Seq1 (A :: As)) (TSeq Seq2 (B :: Bs)) ;; cat AB (TSeq Seq3 Cs))
  = (BC <- cat (TSeq Seq2 (B :: Bs)) (TSeq Seq3 Cs) ;; cat (TSeq Seq1 (A :: As)) BC)
  /\ (AB <- cat (TSeq Seq1 (A :: As)) (TSeq Seq2 (B :: Bs)) ;; cat AB (TSeq Seq3 Cs))
     = Ok (TSeq Seq1 (A :: As ++ B :: Bs ++ Cs)).
Proof.
  destruct (cat_behind_nonempty Seq1 Seq2 A As (B :: Bs)) as [E1 _].
  destruct (cat_behind_nonempty Seq2 Seq3 B Bs Cs) as [E2 _].
  rewrite E1, E2. cbn [bind app].
  destruct (cat_behind_nonempty Seq1 Seq3 A (As ++ B :: Bs) Cs) as [E3 _].
  destruct (cat_behind_nonempty Seq1 Seq2 A As (B :: Bs ++ Cs)) as [E4 _].
  cbn [app] in E3, E4. rewrite E3, E4. cbn [app].
  rewrite <- app_assoc. cbn [app]. split; reflexivity.
Qed.

(** X4. An empty second sequence is a right identity of [cat] on
    non-empty sequences, whatever its shape; an empty first sequence is
    never accepted, whatever the second sequence: line 161 then competes with
    line 166 or line 171. *)
Theorem cat_with_an_empty_sequence (Seq1 Seq2 : tag) (T : ty) (Ts : list ty) :
  cat (TSeq Seq1 (T :: Ts)) (TSeq Seq2 []) = Ok (TSeq Seq1 (T :: Ts))
  /\ cat (TSeq Seq1 []) (TSeq Seq2 (T :: Ts)) = Error ambiguous_specialization
  /\ cat (TSeq Seq1 []) (TSeq Seq2 []) = Error ambiguous_specialization.
Proof.
  split; [|split; reflexivity].
  destruct (cat_behind_nonempty Seq1 Seq2 T Ts []) as [E _].
  rewrite E. now rewrite app_nil_r.
Qed.

(** ** Position, membership and erasure *)

Lemma first_occurrence (Ts : list ty) (T : ty) :
  In T Ts -> exists pre post, Ts = pre ++ T :: post /\ ~ In T pre.
Proof.
  induction Ts as [|U Ts IH]; intro H; [destruct H|].
  destruct (ty_eqb U T) eqn:E.
  - apply ty_eqb_eq in E. subst U. exists [], Ts. split; [reflexivity | intros []].
  - apply ty_eqb_neq in E. destruct H as [H|H]; [congruence|].
    destruct (IH H) as [pre [post [E1 E2]]]. exists (U :: pre), post. split.
    + now rewrite E1.
    + intros [H1|H1]; [congruence | now apply E2].
Qed.

(** X5. For a type that occurs in a sequence of a size below [2^64],
    [index_of] is the position of its first occurrence: the number of the
    elements in front of it, none of which is the type. *)
Theorem index_of_is_the_first_occurrence (Seq : tag) (Ts : list ty) (T : ty) :
  In T Ts ->
  Z.of_nat (length Ts) < 2 ^ 64 ->
  exists pre post,
    Ts = pre ++ T :: post
    /\ ~ In T pre
    /\ index_of (TSeq Seq Ts) T = Ok (integral_constant (Z.of_nat (length pre)))
    /\ 0 <= Z.of_nat (length pre) < Z.of_nat (length Ts).
Proof.
  intros HIn Hlen.
  destruct (first_occurrence Ts T HIn) as [pre [post [E Hpre]]]. subst Ts.
  rewrite length_app in *. cbn [length] in *.
  exists pre, post. split; [reflexivity|]. split; [exact Hpre|]. split; [|lia].
  unfold index_of. rewrite index_of_impl_first; [reflexivity | exact Hpre | lia].
Qed.

Lemma index_of_is_the_first_occurrence_witness :
  exists pre post,
    [Builtin Double; Builtin Char; Builtin Bool; Builtin Char]
    = pre ++ Builtin Char :: post
    /\ ~ In (Builtin Char) pre
    /\ index_of (TSeq type_list [Builtin Double; Builtin Char; Builtin Bool; Builtin Char])
         (Builtin Char)
       = Ok (integral_constant (Z.of_nat (length pre)))
    /\ 0 <= Z.of_nat (length pre)
         < Z.of_nat (length [Builtin Double; Builtin Char; Builtin Bool; Builtin Char]).
Proof.
  apply (index_of_is_the_first_occurrence type_list
           [Builtin Double; Builtin Char; Builtin Bool; Builtin Char] (Builtin Char)).
  - right. left. reflexivity.
  - vm_compute. reflexivity.
Defined.

(** X6. For a non-empty sequence that does not hold [T], [index_of] is
    the last position, [size - 1]: the result for an absent type is the one
    for a type that is found only at the end. *)
Theorem index_of_absent_is_the_last_position (Seq : tag) (U T : ty) (Ts : list ty) :
  ~ In T (U :: Ts) ->
  Z.of_nat (length (U :: Ts)) <= INT_MAX ->
  index_of (TSeq Seq (U :: Ts)) T
  = Ok (integral_constant (Z.of_nat (length (U :: Ts)) - 1))
  /\ index_of (TSeq Seq (U :: Ts)) T = index_of (TSeq Seq (Ts ++ [T])) T.
Proof.
  intros H Hlen.
  assert (E : index_of (TSeq Seq (U :: Ts)) T
              = Ok (integral_constant (Z.of_nat (length (U :: Ts)) - 1))).
  { unfold index_of. rewrite index_of_impl_absent_nonempty;
      [reflexivity | exact H | discriminate | unfold INT_MAX in Hlen; lia]. }
  split; [exact E|]. rewrite E. unfold index_of.
  rewrite index_of_impl_first.
  - cbn [length]. do 2 f_equal. lia.
  - intro HIn. apply H. now right.
  - cbn [length] in Hlen. unfold INT_MAX in Hlen. lia.
Qed.

Lemma index_of_absent_is_the_last_position_witness :
  index_of (TSeq type_list (Builtin Double :: [Builtin Char; Builtin Bool])) (Builtin Float)
  = Ok (integral_constant (Z.of_nat (length (Builtin Double :: [Builtin Char; Builtin Bool])) - 1)).
Proof.
  apply (index_of_absent_is_the_last_position type_list (Builtin Double) (Builtin Float)
           [Builtin Char; Builtin Bool]).
  - intros [H|[H|[H|[]]]]; discriminate.
  - vm_compute. discriminate.
Defined.

Lemma filter_absent (T : ty) (Ts : list ty) :
  ~ In T Ts -> filter (fun U => negb (ty_eqb U T)) Ts = Ts.
Proof.
  induction Ts as [|U Ts IH]; intro H; [reflexivity|].
  cbn [filter].
  assert (E : ty_eqb U T = false)
    by (apply ty_eqb_neq; intro; subst; apply H; now left).
  rewrite E. cbn [negb]. rewrite IH; [reflexivity|].
  intro; apply H; now right.
Qed.

(** X7. After [erase_type(seq, T)] the type [T] is no member any more,
    erasing it a second time changes nothing, and two erasures give the same
    sequence in either order. *)
Theorem erase_type_composes (Seq : tag) (Ts : list ty) (T U : ty) :
  (S <- erase_type (TSeq Seq Ts) T ;; has_type S T) = Ok false
  /\ (S <- erase_type (TSeq Seq Ts) T ;; erase_type S T) = erase_type (TSeq Seq Ts) T
  /\ (S <- erase_type (TSeq Seq Ts) T ;; erase_type S U)
     = (S <- erase_type (TSeq Seq Ts) U ;; erase_type S T).
Proof.
  unfold erase_type. rewrite !erase_type_impl_filter. cbn [bind].
  rewrite !erase_type_impl_filter. split; [|split].
  - rewrite has_type_seq. f_equal. apply not_true_is_false. intro H.
    apply existsb_exists in H as [V [HV E]]. apply ty_eqb_eq in E. subst V.
    apply filter_In in HV as [_ HV]. now rewrite ty_eqb_refl in HV.
  - do 2 f_equal. apply filter_absent. intro H.
    apply filter_In in H as [_ H]. now rewrite ty_eqb_refl in H.
  - do 2 f_equal. induction Ts as [|V Ts IH]; [reflexivity|].
    cbn [filter].
    destruct (ty_eqb V T) eqn:ET, (ty_eqb V U) eqn:EU; cbn [negb filter];
      rewrite ?ET, ?EU; cbn [negb]; now rewrite IH.
Qed.

Lemma In_or_absent (T : ty) (Ts : list ty) : In T Ts \/ ~ In T Ts.
Proof.
  destruct (existsb (fun U => ty_eqb T U) Ts) eqn:E.
  - left. apply existsb_exists in E as [U [HU EU]].
    apply ty_eqb_eq in EU. now subst.
  - right. intro H. apply not_true_iff_false in E. apply E.
    apply existsb_exists. exists T. split; [exact H | apply ty_eqb_refl].
Qed.

(** X8. [erase_type(seq, T)] gives [seq] back exactly when [T] does not
    occur in it; the result is never longer than [seq], and shorter exactly
    when [T] occurs. *)
Theorem erase_type_of_an_absent_type (Seq : tag) (Ts : list ty) (T : ty) :
  (erase_type (TSeq Seq Ts) T = Ok (TSeq Seq Ts) <-> ~ In T Ts)
  /\ (exists Us, erase_type (TSeq Seq Ts) T = Ok (TSeq Seq Us)
                 /\ (length Us <= length Ts)%nat
                 /\ ((length Us < length Ts)%nat <-> In T Ts)).
Proof.
  unfold erase_type. rewrite erase_type_impl_filter.
  assert (Shorter : In T Ts ->
            (length (filter (fun U => negb (ty_eqb U T)) Ts) < length Ts)%nat).
  { intro H. induction Ts as [|V Ts IH]; [destruct H|].
    cbn [filter length]. destruct (ty_eqb V T) eqn:E; cbn [negb length].
    - pose proof (filter_length_le (fun U => negb (ty_eqb U T)) Ts). lia.
    - apply ty_eqb_neq in E. destruct H as [H|H]; [congruence|].
      specialize (IH H). lia. }
  split.
  - split.
    + intros E H. injection E as E. specialize (Shorter H).
      rewrite E in Shorter. lia.
    + intro H. now rewrite filter_absent.
  - exists (filter (fun U => negb (ty_eqb U T)) Ts).
    split; [reflexivity|]. split; [apply filter_length_le|].
    split; [|exact Shorter].
    intro Hlt. destruct (In_or_absent T Ts) as [H|H]; [exact H|].
    rewrite filter_absent in Hlt by exact H. lia.
Qed.

(** X9. A type is a member of [cat(A, B)], for a non-empty [A], exactly
    when it is a member of [A] or of [B]. *)
Theorem has_type_of_cat (Seq1 Seq2 : tag) (A : ty) (As Bs : list ty) (T : ty) :
  (S <- cat (TSeq Seq1 (A :: As)) (TSeq Seq2 Bs) ;; has_type S T)
  = (a <- has_type (TSeq Seq1 (A :: As)) T ;;
     b <- has_type (TSeq Seq2 Bs) T ;;
     Ok (a || b)).
Proof.
  destruct (cat_behind_nonempty Seq1 Seq2 A As Bs) as [E _].
  rewrite E. cbn [bind]. rewrite !has_type_seq. cbn [bind].
  now rewrite existsb_app.
Qed.

(** ** Erasure by position *)

Lemma erase_Nth_impl_at (Seq : tag) (T : ty) (post : list ty) :
  forall pre, Z.of_nat (length pre) < 2 ^ 64 ->
  erase_Nth_impl Seq (pre ++ T :: post) (Z.of_nat (length pre))
  = Ok (TSeq Seq (pre ++ post)).
Proof.
  induction pre as [|U pre IH]; intro H; [reflexivity|].
  cbn [app erase_Nth_impl length] in *.
  replace (Z.of_nat (S (length pre)) =? 0) with false
    by (symmetry; apply Z.eqb_neq; lia).
  replace (Z.of_nat (S (length pre)) - 1) with (Z.of_nat (length pre)) by lia.
  rewrite size_t_wrap_small by lia.
  rewrite IH by lia. cbn [bind]. apply cat_singleton.
Qed.

Lemma erase_Nth_impl_past_the_end (Seq : tag) (Ts : list ty) :
  forall N, Z.of_nat (length Ts) <= N < 2 ^ 64 ->
  erase_Nth_impl Seq Ts N = Error incomplete_type.
Proof.
  induction Ts as [|T Ts IH]; intros N H; [reflexivity|].
  cbn [erase_Nth_impl length] in *.
  replace (N =? 0) with false by (symmetry; apply Z.eqb_neq; lia).
  rewrite size_t_wrap_small by lia.
  rewrite IH by lia. reflexivity.
Qed.

(** X10. [erase_Nth(seq, N)] for a position [N] of [seq] is [seq] without
    the element at that position: the elements before and behind it stay, in
    their order and in the shape of [seq], and the size goes down by one. *)
Theorem erase_Nth_removes_the_position (Seq : tag) (pre post : list ty) (T : ty) :
  Z.of_nat (length pre) < 2 ^ 64 ->
  erase_Nth (TSeq Seq (pre ++ T :: post)) (Z.of_nat (length pre))
  = Ok (TSeq Seq (pre ++ post))
  /\ size (TSeq Seq (pre ++ post))
     = Ok (integral_constant (Z.of_nat (length (pre ++ T :: post)) - 1)).
Proof.
  intro H. split; [now apply erase_Nth_impl_at|].
  unfold size. rewrite !length_app. cbn [length]. do 2 f_equal. lia.
Qed.

Lemma erase_Nth_removes_the_position_witness :
  erase_Nth
    (TSeq type_list ([Builtin Double] ++ Builtin Char :: [Builtin Bool; Builtin Double]))
    (Z.of_nat (length [Builtin Double]))
  = Ok (TSeq type_list ([Builtin Double] ++ [Builtin Bool; Builtin Double])).
Proof.
  apply (erase_Nth_removes_the_position type_list [Builtin Double]
           [Builtin Bool; Builtin Double] (Builtin Char)).
  vm_compute. reflexivity.
Defined.

(** X11. [erase_Nth] is rejected for every index at or past the size of
    the sequence, and so for every index on the empty sequence: the
    recursion of line 389 ends at the empty sequence, for which no
    specialisation is written. *)
Theorem erase_Nth_past_the_end_is_rejected (Seq : tag) (Ts : list ty) (N : Z) :
  Z.of_nat (length Ts) <= N < 2 ^ 64 ->
  erase_Nth (TSeq Seq Ts) N = Error incomplete_type.
Proof. intro H. now apply erase_Nth_impl_past_the_end. Qed.

Lemma erase_Nth_past_the_end_is_rejected_witness :
  erase_Nth (TSeq type_list [Builtin Double; Builtin Char]) 2 = Error incomplete_type.
Proof.
  apply (erase_Nth_past_the_end_is_rejected type_list [Builtin Double; Builtin Char] 2).
  vm_compute. split; [discriminate | reflexivity].
Defined.

(** X12. For a type that occurs exactly once in a sequence,
    [erase_Nth] at the position [index_of] gives is [erase_type] of that
    type. *)
Theorem erase_Nth_at_index_of (Seq : tag) (pre post : list ty) (T : ty) :
  ~ In T pre -> ~ In T post ->
  Z.of_nat (length pre) < 2 ^ 64 ->
  (i <- index_of (TSeq Seq (pre ++ T :: post)) T ;;
   n <- value i ;;
   erase_Nth (TSeq Seq (pre ++ T :: post)) n)
  = erase_type (TSeq Seq (pre ++ T :: post)) T.
Proof.
  intros Hpre Hpost Hlen. unfold index_of. cbn [bind value].
  rewrite index_of_impl_first by assumption.
  unfold erase_Nth, erase_type.
  rewrite erase_Nth_impl_at by exact Hlen.
  rewrite erase_type_impl_filter, filter_app. cbn [filter].
  rewrite ty_eqb_refl. cbn [negb].
  now rewrite !filter_absent.
Qed.

Lemma erase_Nth_at_index_of_witness :
  (i <- index_of (TSeq type_list ([Builtin Double] ++ Builtin Char :: [Builtin Bool]))
          (Builtin Char) ;;
   n <- value i ;;
   erase_Nth (TSeq type_list ([Builtin Double] ++ Builtin Char :: [Builtin Bool])) n)
  = erase_type (TSeq type_list ([Builtin Double] ++ Builtin Char :: [Builtin Bool]))
      (Builtin Char).
Proof.
  apply (erase_Nth_at_index_of type_list [Builtin Double] [Builtin Bool] (Builtin Char)).
  - intros [H|[]]. discriminate.
  - intros [H|[]]. discriminate.
  - vm_compute. reflexivity.
Defined.

(** ** Change of the inner shape *)

Lemma transfer_impl_inner (Seq Fun : tag) (S : list (tag * list ty)) :
  transfer_impl Seq (map inner_seq S) Fun
  = Ok (TSeq Seq (map (fun si => TSeq Fun (snd si)) S)).
Proof.
  induction S as [|[g Ts] S IH]; [reflexivity|].
  cbn [map transfer_impl]. change (inner_seq (g, Ts)) with (TSeq g Ts).
  cbn [substitute bind]. rewrite IH. cbn [bind snd]. apply cat_singleton.
Qed.

Lemma transfer_impl_other_element (Seq Fun : tag) (Ts : list ty) :
  existsb (fun T => negb (is_type_sequence T)) Ts = true ->
  transfer_impl Seq Ts Fun = Error incomplete_type.
Proof.
  induction Ts as [|T Ts IH]; intro H; [discriminate|].
  cbn [existsb] in H. cbn [transfer_impl].
  destruct T; try reflexivity.
  cbn [is_type_sequence negb orb] in H. cbn [substitute bind].
  now rewrite IH.
Qed.

(** X13. [transfer(S, Fun)] of a sequence of sequences gives every inner
    sequence the shape [Fun] and keeps its elements, the order of the inner
    sequences and the shape of [S]; [substitute] changes the shape only, and
    changing it back gives the sequence back.  With an element that is no
    type sequence [transfer] is rejected. *)
Theorem transfer_changes_the_inner_shapes (Seq Fun : tag) (S : list (tag * list ty))
    (Ts : list ty) :
  transfer (TSeq Seq (map inner_seq S)) Fun
  = Ok (TSeq Seq (map (fun si => TSeq Fun (snd si)) S))
  /\ (T <- substitute (TSeq Seq Ts) Fun ;; substitute T Seq) = Ok (TSeq Seq Ts)
  /\ (T <- substitute (TSeq Seq Ts) Fun ;; size T) = size (TSeq Seq Ts)
  /\ (existsb (fun T => negb (is_type_sequence T)) Ts = true <->
      transfer (TSeq Seq Ts) Fun = Error incomplete_type).
Proof.
  split; [apply transfer_impl_inner|]. repeat split.
  - apply transfer_impl_other_element.
  - intro H. destruct (existsb (fun T => negb (is_type_sequence T)) Ts) eqn:E;
      [reflexivity|].
    assert (exists S', Ts = map inner_seq S') as [S' ES].
    { clear H. induction Ts as [|T Ts IH]; [now exists []|].
      cbn [existsb] in E. apply orb_false_iff in E as [E1 E2].
      destruct (IH E2) as [S' ES]. destruct T; try discriminate.
      exists ((tg, ts) :: S'). cbn [map]. now rewrite ES. }
    subst Ts. unfold transfer in H. rewrite transfer_impl_inner in H.
    discriminate.
Qed.

(** ** The other filters *)

Lemma has_any_type_seq (Seq1 Seq2 : tag) (Ts1 Ts2 : list ty) :
  has_any_type (TSeq Seq1 Ts1) (TSeq Seq2 Ts2)
  = Ok (existsb (fun T2 => existsb (fun U => ty_eqb T2 U) Ts1) Ts2).
Proof.
  unfold has_any_type.
  rewrite (expand_total _ (fun T2 => existsb (fun U => ty_eqb T2 U) Ts1)).
  - cbn [bind]. now rewrite fold_orb_existsb.
  - intro T2. apply has_type_seq.
Qed.

Lemma existsb_member (T : ty) (Ts : list ty) :
  existsb (fun U => ty_eqb T U) Ts = true <-> In T Ts.
Proof.
  rewrite existsb_exists. split.
  - intros [U [HU E]]. apply ty_eqb_eq in E. now subst.
  - intro H. exists T. split; [exact H | apply ty_eqb_refl].
Qed.

(** X14. [has_any_type(A, B)] is a boolean for all type sequences, [true]
    exactly when some element of [B] occurs in [A]; for an empty [B] it is
    [false], where [has_all_types] is [true]; and for a non-empty [B],
    [has_all_types(A, B)] implies [has_any_type(A, B)]. *)
Theorem has_any_type_is_a_common_element (Seq1 Seq2 : tag) (Ts1 Ts2 : list ty) (C : ty) :
  (exists b, has_any_type (TSeq Seq1 Ts1) (TSeq Seq2 Ts2) = Ok b
             /\ (b = true <-> exists T, In T Ts2 /\ In T Ts1))
  /\ has_any_type (TSeq Seq1 Ts1) (TSeq Seq2 []) = Ok false
  /\ has_all_types (TSeq Seq1 Ts1) (TSeq Seq2 []) = Ok true
  /\ (all <- has_all_types (TSeq Seq1 Ts1) (TSeq Seq2 (C :: Ts2)) ;;
      any <- has_any_type (TSeq Seq1 Ts1) (TSeq Seq2 (C :: Ts2)) ;;
      Ok (implb all any))
     = Ok true.
Proof.
  split; [|split; [|split]].
  - rewrite has_any_type_seq. eexists. split; [reflexivity|].
    rewrite existsb_exists. split.
    + intros [T [HT E]]. exists T. split; [exact HT | now apply existsb_member].
    + intros [T [HT E]]. exists T. split; [exact HT | now apply existsb_member].
  - destruct Ts1; reflexivity.
  - destruct Ts1; reflexivity.
  - rewrite has_all_types_seq, has_any_type_seq. cbn [forallb existsb bind].
    destruct (existsb (fun U => ty_eqb C U) Ts1); cbn [andb orb];
      [destruct (forallb _ Ts2)|]; reflexivity.
Qed.

Lemma filter_have_type_impl_filter (Seq : tag) (C : ty) (S : list (tag * list ty)) :
  filter_have_type_impl Seq (map inner_seq S) C
  = Ok (TSeq Seq (map inner_seq (filter (kept_by_type C) S))).
Proof.
  induction S as [|[g Ts] S IH]; [reflexivity|].
  cbn [map filter_have_type_impl]. rewrite IH. cbn [bind].
  rewrite cat_singleton. cbn [bind filter].
  assert (K : kept_by_type C (g, Ts) = existsb (fun U => ty_eqb C U) Ts).
  { unfold kept_by_type. change (inner_seq (g, Ts)) with (TSeq g Ts).
    now rewrite has_type_seq. }
  rewrite K. change (inner_seq (g, Ts)) with (TSeq g Ts).
  rewrite has_type_seq. cbn [bind conditional].
  now destruct (existsb _ Ts).
Qed.

Lemma filter_have_any_type_impl_filter (Seq1 Seq2 : tag) (Cs : list ty)
    (S : list (tag * list ty)) :
  filter_have_any_type_impl Seq1 (map inner_seq S) (TSeq Seq2 Cs)
  = Ok (TSeq Seq1 (map inner_seq (filter (kept_by_any (TSeq Seq2 Cs)) S))).
Proof.
  induction S as [|[g Ts] S IH]; [reflexivity|].
  cbn [map filter_have_any_type_impl]. rewrite IH. cbn [bind].
  rewrite cat_singleton. cbn [bind filter].
  assert (K : kept_by_any (TSeq Seq2 Cs) (g, Ts)
              = existsb (fun T2 => existsb (fun U => ty_eqb T2 U) Ts) Cs).
  { unfold kept_by_any. change (inner_seq (g, Ts)) with (TSeq g Ts).
    now rewrite has_any_type_seq. }
  rewrite K. change (inner_seq (g, Ts)) with (TSeq g Ts).
  rewrite has_any_type_seq. cbn [bind conditional].
  now destruct (existsb _ Cs).
Qed.

Lemma filter_idempotent {A : Type} (p : A -> bool) (l : list A) :
  filter p (filter p l) = filter p l.
Proof.
  induction l as [|x l IH]; [reflexivity|].
  cbn [filter]. destruct (p x) eqn:E; [|exact IH].
  cbn [filter]. now rewrite E, IH.
Qed.

(** X15. [filter_have_type(S, C)] is well-formed for every sequence of
    sequences [S], has the shape of [S] and holds exactly the inner sequences
    of which [C] is a member, in the order they have in [S]; filtering the
    result again changes nothing. *)
Theorem filter_have_type_keeps_the_holders (Seq : tag) (C : ty) (S : list (tag * list ty)) :
  filter_have_type (TSeq Seq (map inner_seq S)) C
  = Ok (TSeq Seq (map inner_seq (filter (kept_by_type C) S)))
  /\ (forall si, kept_by_type C si = true <-> In C (snd si))
  /\ (R <- filter_have_type (TSeq Seq (map inner_seq S)) C ;; filter_have_type R C)
     = filter_have_type (TSeq Seq (map inner_seq S)) C.
Proof.
  unfold filter_have_type. rewrite filter_have_type_impl_filter. cbn [bind].
  rewrite filter_have_type_impl_filter, filter_idempotent.
  split; [reflexivity|]. split; [|reflexivity].
  intros [g Ts]. unfold kept_by_type. change (inner_seq (g, Ts)) with (TSeq g Ts).
  rewrite has_type_seq. cbn [holds snd]. apply existsb_member.
Qed.

(** X16. [filter_have_any_type(S, Cs)] is well-formed for every sequence
    of sequences [S] and criterion sequence [Cs], has the shape of [S] and
    holds exactly the inner sequences that share an element with [Cs], in the
    order they have in [S]; filtering the result again changes nothing. *)
Theorem filter_have_any_type_keeps_the_sharers (Seq1 Seq2 : tag) (Cs : list ty)
    (S : list (tag * list ty)) :
  filter_have_any_type (TSeq Seq1 (map inner_seq S)) (TSeq Seq2 Cs)
  = Ok (TSeq Seq1 (map inner_seq (filter (kept_by_any (TSeq Seq2 Cs)) S)))
  /\ (forall si, kept_by_any (TSeq Seq2 Cs) si = true
                 <-> exists C, In C Cs /\ In C (snd si))
  /\ (R <- filter_have_any_type (TSeq Seq1 (map inner_seq S)) (TSeq Seq2 Cs) ;;
      filter_have_any_type R (TSeq Seq2 Cs))
     = filter_have_any_type (TSeq Seq1 (map inner_seq S)) (TSeq Seq2 Cs).
Proof.
  unfold filter_have_any_type. rewrite filter_have_any_type_impl_filter. cbn [bind].
  rewrite filter_have_any_type_impl_filter, filter_idempotent.
  split; [reflexivity|]. split; [|reflexivity].
  intros [g Ts]. unfold kept_by_any. change (inner_seq (g, Ts)) with (TSeq g Ts).
  rewrite has_any_type_seq. cbn [holds snd]. rewrite existsb_exists. split.
  - intros [T [HT E]]. exists T. split; [exact HT | now apply existsb_member].
  - intros [T [HT E]]. exists T. split; [exact HT | now apply existsb_member].
Qed.

(** X17. For a criterion sequence of the one type [C] the three filters
    agree: [filter_have_all_types(S, {C})], [filter_have_any_type(S, {C})] and
    [filter_have_type(S, C)] are the same sequence. *)
Theorem filters_agree_on_one_criterion (Seq1 Seq2 : tag) (C : ty)
    (S : list (tag * list ty)) :
  filter_have_all_types (TSeq Seq1 (map inner_seq S)) (TSeq Seq2 [C])
  = filter_have_type (TSeq Seq1 (map inner_seq S)) C
  /\ filter_have_any_type (TSeq Seq1 (map inner_seq S)) (TSeq Seq2 [C])
     = filter_have_type (TSeq Seq1 (map inner_seq S)) C.
Proof.
  unfold filter_have_all_types, filter_have_any_type, filter_have_type.
  rewrite filter_have_all_types_impl_filter, filter_have_any_type_impl_filter,
    filter_have_type_impl_filter.
  split; do 3 f_equal; apply filter_ext; intros [g Ts].
  - unfold kept, kept_by_type. change (inner_seq (g, Ts)) with (TSeq g Ts).
    rewrite has_all_types_seq, has_type_seq. cbn [forallb holds].
    apply andb_true_r.
  - unfold kept_by_any, kept_by_type. change (inner_seq (g, Ts)) with (TSeq g Ts).
    rewrite has_any_type_seq, has_type_seq. cbn [existsb holds].
    apply orb_false_r.
Qed.

(** X18. With an empty criterion sequence [filter_have_all_types] gives
    the sequence of sequences back unchanged and [filter_have_any_type] gives
    the empty sequence. *)
Theorem filters_with_no_criterion (Seq1 Seq2 : tag) (S : list (tag * list ty)) :
  filter_have_all_types (TSeq Seq1 (map inner_seq S)) (TSeq Seq2 [])
  = Ok (TSeq Seq1 (map inner_seq S))
  /\ filter_have_any_type (TSeq Seq1 (map inner_seq S)) (TSeq Seq2 [])
     = Ok (TSeq Seq1 []).
Proof.
  unfold filter_have_all_types, filter_have_any_type.
  rewrite filter_have_all_types_impl_filter, filter_have_any_type_impl_filter.
  split; do 3 f_equal.
  - induction S as [|[g Ts] S IH]; [reflexivity|].
    cbn [filter]. unfold kept at 1. change (inner_seq (g, Ts)) with (TSeq g Ts).
    rewrite has_all_types_seq. cbn [forallb holds]. now rewrite IH.
  - induction S as [|[g Ts] S IH]; [reflexivity|].
    cbn [filter]. unfold kept_by_any at 1. change (inner_seq (g, Ts)) with (TSeq g Ts).
    rewrite has_any_type_seq. cbn [existsb holds]. exact IH.
Qed.

Lemma filter_have_type_impl_other_element (Seq : tag) (C : ty) (Ts : list ty) :
  (forallb is_type_sequence Ts = true ->
   exists Us, filter_have_type_impl Seq Ts C = Ok (TSeq Seq Us))
  /\ (forallb is_type_sequence Ts = false ->
      filter_have_type_impl Seq Ts C = Error incomplete_type).
Proof.
  induction Ts as [|T Ts [IH1 IH2]].
  - split; [now exists [] | discriminate].
  - cbn [forallb filter_have_type_impl].
    destruct (forallb is_type_sequence Ts).
    + destruct (IH1 eq_refl) as [Us E]. rewrite E. cbn [bind].
      rewrite cat_singleton. cbn [bind].
      destruct T; cbn [is_type_sequence andb]; split; intro H;
        try discriminate; try reflexivity.
      rewrite has_type_seq. cbn [bind conditional].
      destruct (existsb _ ts); eexists; reflexivity.
    + rewrite (IH2 eq_refl). rewrite andb_false_r.
      split; [discriminate | reflexivity].
Qed.

Lemma filter_have_all_types_impl_other_element (Seq Seq2 : tag) (Cs Ts : list ty) :
  (forallb is_type_sequence Ts = true ->
   exists Us, filter_have_all_types_impl Seq Ts (TSeq Seq2 Cs) = Ok (TSeq Seq Us))
  /\ (forallb is_type_sequence Ts = false ->
      filter_have_all_types_impl Seq Ts (TSeq Seq2 Cs) = Error incomplete_type).
Proof.
  induction Ts as [|T Ts [IH1 IH2]].
  - split; [now exists [] | discriminate].
  - cbn [forallb filter_have_all_types_impl].
    destruct (forallb is_type_sequence Ts).
    + destruct (IH1 eq_refl) as [Us E]. rewrite E. cbn [bind].
      rewrite cat_singleton. cbn [bind].
      destruct T; cbn [is_type_sequence andb]; split; intro H;
        try discriminate; try reflexivity.
      rewrite has_all_types_seq. cbn [bind conditional].
      destruct (forallb _ Cs); eexists; reflexivity.
    + rewrite (IH2 eq_refl). rewrite andb_false_r.
      split; [discriminate | reflexivity].
Qed.

Lemma filter_have_any_type_impl_other_element (Seq Seq2 : tag) (Cs Ts : list ty) :
  (forallb is_type_sequence Ts = true ->
   exists Us, filter_have_any_type_impl Seq Ts (TSeq Seq2 Cs) = Ok (TSeq Seq Us))
  /\ (forallb is_type_sequence Ts = false ->
      filter_have_any_type_impl Seq Ts (TSeq Seq2 Cs) = Error incomplete_type).
Proof.
  induction Ts as [|T Ts [IH1 IH2]].
  - split; [now exists [] | discriminate].
  - cbn [forallb filter_have_any_type_impl].
    destruct (forallb is_type_sequence Ts).
    + destruct (IH1 eq_refl) as [Us E]. rewrite E. cbn [bind].
      rewrite cat_singleton. cbn [bind].
      destruct T; cbn [is_type_sequence andb]; split; intro H;
        try discriminate; try reflexivity.
      rewrite has_any_type_seq. cbn [bind conditional].
      destruct (existsb _ Cs); eexists; reflexivity.
    + rewrite (IH2 eq_refl). rewrite andb_false_r.
      split; [discriminate | reflexivity].
Qed.

(** X19. The three filters are rejected as soon as one element of the
    filtered sequence is no type sequence, wherever it stands and whatever the
    criterion: the membership test of that element has no specialisation. *)
Theorem filters_reject_an_element_that_is_no_sequence (Seq Seq2 : tag)
    (Ts Cs : list ty) (C : ty) :
  forallb is_type_sequence Ts = false ->
  filter_have_type (TSeq Seq Ts) C = Error incomplete_type
  /\ filter_have_all_types (TSeq Seq Ts) (TSeq Seq2 Cs) = Error incomplete_type
  /\ filter_have_any_type (TSeq Seq Ts) (TSeq Seq2 Cs) = Error incomplete_type.
Proof.
  intro H. split; [|split].
  - now apply filter_have_type_impl_other_element.
  - now apply filter_have_all_types_impl_other_element.
  - now apply filter_have_any_type_impl_other_element.
Qed.

Lemma filters_reject_an_element_that_is_no_sequence_witness :
  filter_have_type
    (TSeq type_list [TSeq type_list [Builtin Char; Builtin Float]; Builtin Int])
    (Builtin Float)
  = Error incomplete_type.
Proof.
  apply (filters_reject_an_element_that_is_no_sequence type_list type_list
           [TSeq type_list [Builtin Char; Builtin Float]; Builtin Int]
           [Builtin Float] (Builtin Float)).
  reflexivity.
Defined.

(** ** Lookup of one key and of a sequence of keys *)

(** X20. [map] is rejected for every first argument, key and default, a
    map with pairs, the empty map or no sequence at all: it names [Nth_type]
    on every path, which is never instantiated. *)
Theorem map_is_rejected_for_every_argument (Map Key Default : ty) :
  map_impl Map Key Default = Error incomplete_type.
Proof. apply map_impl_incomplete. Qed.

(** X22. Without keys [apply_map] is the empty [type_list] for every
    first argument, a map or not, and whatever the shape of the keys; with at
    least one key it names [map] and is rejected for every first argument. *)
Theorem apply_map_at_the_edges (Seq2 : tag) (Map Default K : ty) (Ks : list ty) :
  apply_map Map (TSeq Seq2 []) Default = Ok (TSeq type_list [])
  /\ apply_map Map (TSeq Seq2 (K :: Ks)) Default = Error incomplete_type.
Proof.
  split; [reflexivity|].
  unfold apply_map. cbn [expand]. now rewrite map_impl_incomplete.
Qed.

(** ** Loops in sequence *)

Lemma static_for_fold (St : Type) (f : Z -> St -> St) (T : int_type)
    (Begin End : Z) (s : St) :
  representable T Begin = true -> representable T End = true ->
  Begin <= End -> representable T (End - Begin) = true ->
  static_for f T Begin End s
  = Ok (fold_left (fun s i => f i s) (ascending Begin End) s).
Proof.
  intros HB HE Hle HD. unfold static_for.
  rewrite constant_representable by exact HD. cbn [bind].
  unfold make_integer_sequence.
  replace (End - Begin <? 0) with false by (symmetry; apply Z.ltb_ge; lia).
  cbn [bind]. unfold static_for_impl.
  rewrite (expand_indices T Begin End) by (try assumption; lia).
  reflexivity.
Qed.

Lemma ascending_from (n : nat) :
  forall (B : Z) (start : nat),
  map (fun k => B + Z.of_nat k) (seq start n)
  = map (fun k => B + Z.of_nat start + Z.of_nat k) (seq 0 n).
Proof.
  induction n as [|n IH]; intros B start; [reflexivity|].
  cbn [seq map]. f_equal; [lia|].
  rewrite (IH B (S start)), (IH (B + Z.of_nat start) 1%nat).
  apply map_ext. intro k. lia.
Qed.

Lemma ascending_app (Begin Mid End : Z) :
  Begin <= Mid <= End ->
  ascending Begin End = ascending Begin Mid ++ ascending Mid End.
Proof.
  intro H. unfold ascending.
  replace (Z.to_nat (End - Begin))
    with (Z.to_nat (Mid - Begin) + Z.to_nat (End - Mid))%nat by lia.
  rewrite seq_app, map_app. f_equal. cbn [Nat.add].
  rewrite ascending_from. apply map_ext. intro k. lia.
Qed.

Lemma difference_representable (T : int_type) (a b : Z) :
  0 <= a <= b -> representable T b = true -> representable T a = true.
Proof.
  intros H Hb. unfold representable in *.
  apply andb_true_iff in Hb as [_ Hb]. apply Z.leb_le in Hb.
  assert (min_of T <= 0) by (destruct T; vm_compute; discriminate).
  apply andb_true_iff. split; apply Z.leb_le; lia.
Qed.

(** X23. A loop can be cut at any [Mid] between its bounds: for
    [Begin <= Mid <= End] of an index type that also holds [End - Begin],
    [static_for(Begin, End, f)] does what [static_for(Begin, Mid, f)] followed
    by [static_for(Mid, End, f)] does, and the loop with equal bounds does not
    call [f]. *)
Theorem static_for_splits (St : Type) (f : Z -> St -> St) (T : int_type)
    (Begin Mid End : Z) (s : St) :
  representable T Begin = true ->
  representable T Mid = true ->
  representable T End = true ->
  Begin <= Mid <= End ->
  representable T (End - Begin) = true ->
  static_for f T Begin End s
  = (s' <- static_for f T Begin Mid s ;; static_for f T Mid End s')
  /\ static_for f T Mid Mid s = Ok s.
Proof.
  intros HB HM HE Hle HD.
  assert (HD1 : representable T (Mid - Begin) = true)
    by (apply (difference_representable T _ (End - Begin)); [lia | exact HD]).
  assert (HD2 : representable T (End - Mid) = true)
    by (apply (difference_representable T _ (End - Begin)); [lia | exact HD]).
  assert (HD3 : representable T (Mid - Mid) = true)
    by (apply (difference_representable T _ (End - Begin)); [lia | exact HD]).
  rewrite !static_for_fold by (try assumption; lia). cbn [bind].
  rewrite static_for_fold by (try assumption; lia).
  rewrite (ascending_app Begin Mid End) by exact Hle.
  rewrite fold_left_app. split; [reflexivity|].
  unfold ascending. now rewrite Z.sub_diag.
Qed.

Lemma static_for_splits_witness :
  static_for record_index T_size_t 1 6 []
  = (s' <- static_for record_index T_size_t 1 3 [] ;;
     static_for record_index T_size_t 3 6 s').
Proof.
  apply (static_for_splits (list Z) record_index T_size_t 1 3 6 []);
    try reflexivity.
  vm_compute. split; discriminate.
Defined.

(** X24. For a signed index type, [static_for] with [End] below [Begin]
    is rejected, and [f] is not called: the length [End - Begin] is negative
    or no value of the type. *)
Theorem static_for_backwards_is_rejected (St : Type) (f : Z -> St -> St)
    (T : int_type) (Begin End : Z) (s : St) :
  is_signed T = true ->
  End < Begin ->
  static_for f T Begin End s = Error not_a_constant.
Proof.
  intros HS Hlt. unfold static_for, constant. rewrite HS.
  destruct (representable T (End - Begin)); [|reflexivity].
  cbn [bind]. unfold make_integer_sequence.
  replace (End - Begin <? 0) with true by (symmetry; apply Z.ltb_lt; lia).
  reflexivity.
Qed.

Lemma static_for_backwards_is_rejected_witness :
  static_for record_index T_int 4 0 [] = Error not_a_constant.
Proof.
  apply (static_for_backwards_is_rejected (list Z) record_index T_int 4 0 []).
  - reflexivity.
  - vm_compute. reflexivity.
Defined.

(** ** Sums and conversions of integer tokens *)

Lemma fold_plus_total (Is : list Z) : fold_plus Is = size_t_wrap (total Is).
Proof.
  induction Is as [|I Is IH]; [reflexivity|].
  cbn [fold_plus fold_right total]. fold (fold_plus Is). fold (total Is).
  rewrite IH. unfold size_t_wrap. apply Zplus_mod_idemp_r.
Qed.


Lemma sum_of_tokens (Seq : tag) (Is : list Z) :
  sum (TSeq Seq (map integral_constant Is))
  = Ok (integral_constant (size_t_wrap (total Is))).
Proof.
  unfold sum. rewrite expand_value_integral_constant. cbn [bind].
  now rewrite fold_plus_total.
Qed.





Lemma expand_test_func (Is : list Z) :
  expand test_func (map integral_constant Is)
  = Ok (map integral_constant (map (fun I => size_t_wrap (2 * I)) Is)).
Proof.
  induction Is as [|I Is IH]; [reflexivity|].
  cbn [map expand]. rewrite IH. reflexivity.
Qed.

Lemma expand_test_func2 (Is : list Z) :
  expand test_func2 Is
  = Ok (map integral_constant (map (fun I => size_t_wrap (2 * I)) Is)).
Proof.
  induction Is as [|I Is IH]; [reflexivity|].
  cbn [map expand]. rewrite IH. reflexivity.
Qed.

Lemma total_doubled (Is : list Z) :
  total (map (fun I => size_t_wrap (2 * I)) Is) mod 2 ^ 64
  = (2 * total Is) mod 2 ^ 64.
Proof.
  induction Is as [|I Is IH]; [reflexivity|].
  cbn [map total fold_right].
  fold (total (map (fun I => size_t_wrap (2 * I)) Is)). fold (total Is).
  unfold size_t_wrap at 1. rewrite Zplus_mod_idemp_l.
  rewrite <- Zplus_mod_idemp_r, IH, Zplus_mod_idemp_r.
  f_equal. lia.
Qed.

(** X26. The value algebra agrees with the type algebra: [sum_value] of
    integers is [sum] of their tokens, [function_value] with [test_func2] is
    [function] with [test_func] on their tokens, and the sum of the doubled
    tokens is twice the sum, modulo [2^64]. *)
Theorem value_algebra_agrees_with_type_algebra (Seq : tag) (Seq2 : vtag) (Is : list Z) :
  (Ts <- value_to_type (VSeq Seq2 Is) ;; sum Ts) = Ok (sum_value Is)
  /\ (Ts <- value_to_type (VSeq Seq2 Is) ;; function Ts test_func)
     = function_value test_func2 Is
  /\ (Ts <- function (TSeq Seq (map integral_constant Is)) test_func ;; sum Ts)
     = Ok (integral_constant ((2 * total Is) mod 2 ^ 64)).
Proof.
  split; [|split].
  - cbn [value_to_type bind]. rewrite sum_of_tokens.
    unfold sum_value. now rewrite fold_plus_total.
  - cbn [value_to_type bind]. unfold function, function_value.
    now rewrite expand_test_func, expand_test_func2.
  - unfold function. rewrite expand_test_func. cbn [bind].
    rewrite sum_of_tokens. unfold size_t_wrap at 1. now rewrite total_doubled.
Qed.


(** ** Positions of a value sequence *)

(** X28. [Nth_value], [front_value] and [back_value] are rejected for
    every argument and every index: line 926 names [Nth_type], which is never
    instantiated, so that the assertions of lines 933, 942 and 951 do not
    hold.  [size_value] of a value sequence is the size of the sequence of its
    tokens. *)
Theorem value_sequence_positions_are_rejected (V : ty) (N : Z) (Seq : vtag)
    (Is : list Z) :
  Nth_value V N = Error incomplete_type
  /\ front_value V = Error incomplete_type
  /\ back_value V = Error incomplete_type
  /\ (Ts <- value_to_type (VSeq Seq Is) ;; size Ts) = size_value (VSeq Seq Is).
Proof.
  assert (H : forall M, Nth_value V M = Error incomplete_type).
  { intro M. unfold Nth_value. destruct V; reflexivity. }
  split; [apply H|]. split; [apply H|]. split.
  - unfold back_value. destruct V; reflexivity.
  - cbn [value_to_type bind size size_value]. now rewrite length_map.
Qed.

(** ** Part of a tuple *)

Lemma skipn_at {A : Type} (tup : list A) :
  forall k x, nth_error tup k = Some x -> skipn k tup = x :: skipn (S k) tup.
Proof.
  induction tup as [|y tup IH]; intros [|k] x H; try discriminate.
  - injection H as ->. reflexivity.
  - cbn [nth_error] in H. change (skipn k tup = x :: skipn (S k) tup).
    now apply IH.
Qed.

Lemma expand_get_slice {A : Type} (Begin : Z) (tup : list A) (n : nat) :
  forall start,
  0 <= Begin ->
  Begin + Z.of_nat (start + n) <= Z.of_nat (length tup) ->
  Begin + Z.of_nat (start + n) <= 2 ^ 64 ->
  expand (fun I => get tup (size_t_wrap (Begin + I))) (map Z.of_nat (seq start n))
  = Ok (firstn n (skipn (Z.to_nat Begin + start) tup)).
Proof.
  induction n as [|n IH]; intros start H0 Hlen Hmax; [reflexivity|].
  cbn [seq map expand].
  rewrite size_t_wrap_small by lia. unfold get at 1.
  replace (Z.to_nat (Begin + Z.of_nat start)) with (Z.to_nat Begin + start)%nat by lia.
  destruct (nth_error tup (Z.to_nat Begin + start)) as [x|] eqn:E.
  - cbn [bind]. rewrite IH by lia. cbn [bind].
    rewrite (skipn_at tup _ x E). cbn [firstn].
    now rewrite Nat.add_succ_r.
  - apply nth_error_None in E. lia.
Qed.

Lemma expand_get_past_the_end {A : Type} (Begin : Z) (tup : list A) (Is : list Z) :
  (exists I, In I Is /\ get tup (size_t_wrap (Begin + I)) = Error index_out_of_range) ->
  expand (fun I => get tup (size_t_wrap (Begin + I))) Is = Error index_out_of_range.
Proof.
  induction Is as [|J Is IH]; intros [I [HI E]]; [destruct HI|].
  cbn [expand].
  destruct (get tup (size_t_wrap (Begin + J))) as [x|d] eqn:EJ.
  - cbn [bind]. destruct HI as [HI|HI]; [subst; congruence|].
    rewrite IH by (exists I; now split). reflexivity.
  - cbn [bind]. unfold get in EJ.
    destruct (nth_error tup (Z.to_nat (size_t_wrap (Begin + J)))); [discriminate|].
    now injection EJ as <-.
Qed.

(** X29. For bounds [0 <= Begin <= End] of [size_t], [sub_tuple<Begin, End>]
    of a tuple is the tuple of its elements at the positions from [Begin] up to
    but without [End], in their order, when [End] is at most the size of the
    tuple or the range is empty; it is rejected when the range is not empty
    and [End] is past the size. *)
Theorem sub_tuple_is_the_slice (A : Type) (Begin End : Z) (tup : list A) :
  0 <= Begin <= End ->
  End < 2 ^ 64 ->
  sub_tuple Begin End tup
  = if (End <=? Z.of_nat (length tup)) || (Begin =? End)
    then Ok (firstn (Z.to_nat (End - Begin)) (skipn (Z.to_nat Begin) tup))
    else Error index_out_of_range.
Proof.
  intros H Hmax. unfold sub_tuple, constant. cbn [is_signed bits bind].
  rewrite Z.mod_small by lia. unfold make_integer_sequence.
  replace (End - Begin <? 0) with false by (symmetry; apply Z.ltb_ge; lia).
  cbn [bind]. unfold sub_tuple_impl.
  destruct (Z.leb_spec End (Z.of_nat (length tup))) as [Hle|Hgt].
  - cbn [orb]. rewrite expand_get_slice by lia. now rewrite Nat.add_0_r.
  - cbn [orb]. destruct (Z.eqb_spec Begin End) as [->|Hne].
    + now rewrite Z.sub_diag.
    + apply expand_get_past_the_end.
      exists (Z.of_nat (Z.to_nat (End - Begin) - 1)). split.
      * apply in_map. apply in_seq. lia.
      * replace (Begin + Z.of_nat (Z.to_nat (End - Begin) - 1)) with (End - 1) by lia.
        rewrite size_t_wrap_small by lia. unfold get.
        replace (nth_error tup (Z.to_nat (End - 1))) with (@None A);
          [reflexivity|].
        symmetry. apply nth_error_None. lia.
Qed.

Lemma sub_tuple_is_the_slice_witness :
  sub_tuple 2 4 [1; 10; 45; 67; 50]
  = if (4 <=? Z.of_nat (length [1; 10; 45; 67; 50])) || (2 =? 4)
    then Ok (firstn (Z.to_nat (4 - 2)) (skipn (Z.to_nat 2) [1; 10; 45; 67; 50]))
    else Error index_out_of_range.
Proof.
  apply (sub_tuple_is_the_slice Z 2 4 [1; 10; 45; 67; 50]).
  - vm_compute. split; discriminate.
  - vm_compute. reflexivity.
Defined.

(** ** Comparison of a sequence with itself and across *)

Lemma ty_eqb_sym (a b : ty) : ty_eqb a b = ty_eqb b a.
Proof.
  destruct (ty_eqb b a) eqn:E.
  - apply ty_eqb_eq in E. subst. apply ty_eqb_refl.
  - apply ty_eqb_neq. apply ty_eqb_neq in E. congruence.
Qed.

Lemma expand2_swap (Ts : list ty) :
  forall Args,
  expand2 (fun T A => ty_eqb (decay T) (decay A)) Ts Args
  = expand2 (fun T A => ty_eqb (decay T) (decay A)) Args Ts.
Proof.
  induction Ts as [|T Ts IH]; intros [|A0 Args]; try reflexivity.
  cbn [expand2]. now rewrite IH, ty_eqb_sym.
Qed.

(** X30. [is_same] holds between a sequence and its own elements, gives
    the same result when the elements and the arguments change places,
    whatever the shapes, and is [false], not a rejection, for every first
    argument that is no type sequence and every argument list. *)
Theorem is_same_is_reflexive_and_symmetric (Seq1 Seq2 : tag) (Ts Args : list ty) :
  is_same (TSeq Seq1 Ts) Ts = Ok true
  /\ is_same (TSeq Seq1 Ts) Args = is_same (TSeq Seq2 Args) Ts
  /\ (forall T, is_type_sequence T = false -> is_same T Args = Ok false).
Proof.
  split; [|split].
  - unfold is_same. rewrite expand2_same_length by reflexivity. cbn [bind].
    rewrite fold_andb_forallb, Nat.eqb_refl. cbn [andb]. f_equal.
    apply forallb_forall. intros [T U] H.
    induction Ts as [|V Ts IH]; [destruct H|].
    cbn [combine] in H. destruct H as [H|H]; [|exact (IH H)].
    injection H as <- <-. apply ty_eqb_refl.
  - unfold is_same. rewrite expand2_swap.
    destruct (expand2 _ Args Ts); [|reflexivity].
    cbn [bind]. now rewrite Nat.eqb_sym.
  - intros T H. destruct T; try reflexivity. discriminate.
Qed.
